(** * statscollector: view/click counters per referer and the CTR report

    A shallow embedding of [main.go]: the three gin handlers [View], [Click]
    and [Stat], run against a model of the slowpoke counter store that the
    handlers reach through [sp.Counter], [sp.CloseAll], [sp.Keys] and
    [sp.Get]. *)

From Stdlib Require Import ZArith QArith List SpecFloat.
From stdpp Require Import gmap strings list sorting.

Local Open Scope Z_scope.

(** ** Machine integers and floats *)

Definition two64 : Z := 2 ^ 64.

(** [binary.BigEndian.Uint64]: reads the first eight bytes, most significant
    first; the bounds check [_ = b[7]] panics on a shorter slice, which is
    [None] here. *)
Definition Uint64 (b : list Z) : option Z :=
  match b with
  | b0 :: b1 :: b2 :: b3 :: b4 :: b5 :: b6 :: b7 :: _ =>
      Some (Z.lor b7 (Z.lor (Z.shiftl b6 8) (Z.lor (Z.shiftl b5 16)
           (Z.lor (Z.shiftl b4 24) (Z.lor (Z.shiftl b3 32)
           (Z.lor (Z.shiftl b2 40) (Z.lor (Z.shiftl b1 48)
                  (Z.shiftl b0 56))))))))
  | _ => None
  end.

(** The conversion [byte(x)] of an unsigned integer keeps its low eight bits. *)
Definition byte (x : Z) : Z := Z.land x 255.

(** [binary.BigEndian.PutUint64] into a fresh slice of eight bytes. *)
Definition PutUint64 (v : Z) : list Z :=
  [ byte (Z.shiftr v 56); byte (Z.shiftr v 48); byte (Z.shiftr v 40);
    byte (Z.shiftr v 32); byte (Z.shiftr v 24); byte (Z.shiftr v 16);
    byte (Z.shiftr v 8); byte v ].

(** IEEE 754 binary64, the [float64] of Go. *)
Definition prec64 : Z := 53.
Definition emax64 : Z := 1024.

(** The conversion [float64(n)] of an unsigned integer: round to nearest,
    ties to even. *)
Definition float64 (n : Z) : spec_float :=
  binary_normalize prec64 emax64 n 0 false.

Definition fdiv (x y : spec_float) : spec_float := SFdiv prec64 emax64 x y.

(** ** The world: counter files, scheduled I/O faults, trace of store calls *)

Inductive sp_error := ErrKeyNotFound | ErrIO.

Inductive call :=
| CallCounter (file key : string) (ok : bool)
| CallCloseAll
| CallKeys (file : string) (ok : bool)
| CallGet (file key : string) (ok : bool).

(** [files] maps a file name (the namespace) to its table of counters;
    [faults] is the schedule of storage faults, one flag consumed by each
    store access ([true]: this access fails); [trace] lists the calls made
    so far, oldest first. *)
Record world := World {
  files : gmap string (gmap string Z);
  faults : list bool;
  trace : list call }.

Definition fresh : world := World ∅ [] [].

Definition table (file : string) (w : world) : gmap string Z :=
  default ∅ (files w !! file).

(** The counter of [(file, key)]; an absent entry reads as [None]. *)
Definition counter (file key : string) (w : world) : option Z :=
  table file w !! key.

(** ** A state monad over the world *)

Definition M (A : Type) : Type := world -> A * world.

Definition ret {A} (a : A) : M A := fun w => (a, w).

Definition bind {A B} (c : M A) (k : A -> M B) : M B :=
  fun w => let (a, w') := c w in k a w'.

Declare Scope sp_scope.
Delimit Scope sp_scope with sp.
Notation "x <- c ;; k" := (bind c (fun x => k))
  (at level 100, c at next level, right associativity) : sp_scope.
Notation "c ;; k" := (bind c (fun _ => k))
  (at level 100, right associativity) : sp_scope.
Local Open Scope sp_scope.

(** ** The store operations *)

(** Whether the access about to be made hits a storage fault, and the world
    once an access has consumed its flag and left the event [ev]. *)
Definition faulty (w : world) : bool :=
  match faults w with
  | true :: _ => true
  | _ => false
  end.

Definition accessed (fs : gmap string (gmap string Z)) (ev : call) (w : world) : world :=
  World fs (tail (faults w)) (trace w ++ [ev]).

(** Modelled from the spec: slowpoke's [Counter(file, key)], the store's
    [Increment]: a read-modify-write that adds one to the 64-bit unsigned
    counter of [(file, key)], an absent counter counting as 0, and creates
    the namespace on first use. A storage fault is returned as a write
    error and leaves the counter as it was. *)
Definition Counter (file key : string) : M (sp_error + Z) := fun w =>
  if faulty w then
    (inl ErrIO, accessed (files w) (CallCounter file key false) w)
  else
    let n := (default 0 (counter file key w) + 1) mod two64 in
    (inr n, accessed (<[file := <[key := n]> (table file w)]> (files w))
                     (CallCounter file key true) w).

(** Modelled from the spec: slowpoke's [CloseAll], the store's [Close]:
    flushes and releases the files; what was acknowledged stays stored. *)
Definition CloseAll : M (option sp_error) := fun w =>
  (None, World (files w) (faults w) (trace w ++ [CallCloseAll])).

(** Modelled from the spec: slowpoke's [Keys(file, nil, 0, 0, true)], the
    store's [ListKeys]: every key of the namespace, in ascending byte-wise
    order; a namespace never written has no keys; a storage fault is a read
    error. *)
Definition Keys (file : string) : M (sp_error + list string) := fun w =>
  if faulty w then
    (inl ErrIO, accessed (files w) (CallKeys file false) w)
  else
    (inr (merge_sort String.le (map_to_list (table file w)).*1),
     accessed (files w) (CallKeys file true) w).

(** Modelled from the spec: slowpoke's [Get(file, key)], the store's [Get]:
    the stored value, as the eight big-endian bytes [Stat] decodes; an
    absent key and a storage fault are two distinct errors. *)
Definition Get (file key : string) : M (sp_error + list Z) := fun w =>
  if faulty w then
    (inl ErrIO, accessed (files w) (CallGet file key false) w)
  else
    match counter file key w with
    | Some v => (inr (PutUint64 v), accessed (files w) (CallGet file key true) w)
    | None => (inl ErrKeyNotFound, accessed (files w) (CallGet file key false) w)
    end.

(** ** Requests and responses *)

Module Hit.
(** [Urls] is [None] for a nil slice. *)
Record t := Build { Referer : string; Urls : option (list string) }.
End Hit.

Module StatResp.
Record t := Build { Url : string; View : Z; Click : Z; CTR : spec_float }.
End StatResp.

(** What a handler sees of [*gin.Context]: the request method, the
    [:referer] path parameter and the outcome of [c.ShouldBind(&h)]. *)
Record Context := {
  Method : string;
  Param_referer : string;
  ShouldBind : string + Hit.t }.

Inductive body :=
| ErrorBody (msg : string)
| StoreErrorBody (err : sp_error)
| HitBody (h : Hit.t)
| StatBody (resp : list StatResp.t).

(** [JSON code obj] is [c.JSON(code, obj)]; [NoReply] a handler that returns
    without writing; [Panicked] a run-time panic inside the handler. *)
Inductive reply :=
| JSON (code : Z) (obj : body)
| NoReply
| Panicked.

Definition StatusOK : Z := 200.
Definition StatusUnprocessableEntity : Z := 422.

(** ** The handlers *)

(** The loop [for _, u := range h.Urls] of [View] and [Click]: the results
    of [sp.Counter] and [sp.CloseAll] are dropped. *)
Fixpoint register (file : string) (urls : list string) : M unit :=
  match urls with
  | [] => ret tt
  | u :: urls' => Counter file u ;; CloseAll ;; register file urls'
  end.

Definition View (c : Context) : M reply :=
  if String.eqb (Method c) "POST" then
    match ShouldBind c with
    | inl err => ret (JSON StatusUnprocessableEntity (ErrorBody err))
    | inr h =>
        match Hit.Urls h with
        | Some urls =>
            register ("counters/view" +:+ Hit.Referer h) urls ;;
            ret (JSON StatusOK (HitBody h))
        | None => ret (JSON StatusUnprocessableEntity (ErrorBody "empty urls"))
        end
    end
  else ret NoReply.

Definition Click (c : Context) : M reply :=
  if String.eqb (Method c) "POST" then
    match ShouldBind c with
    | inl err => ret (JSON StatusUnprocessableEntity (ErrorBody err))
    | inr h =>
        match Hit.Urls h with
        | Some urls =>
            register ("counters/click" +:+ Hit.Referer h) urls ;;
            ret (JSON StatusOK (HitBody h))
        | None => ret (JSON StatusUnprocessableEntity (ErrorBody "empty urls"))
        end
    end
  else ret NoReply.

(** The entry [Stat] appends for a key with [v] views and [c] clicks. *)
Definition entry (key : string) (v c : Z) : StatResp.t :=
  StatResp.Build key v c
    (if 0 <? c then fdiv (float64 v) (float64 c) else S754_zero false).

(** The loop [for _, key := range keys] of [Stat], [resp] being the slice
    built so far; [None] when a decoding panics. *)
Fixpoint stat_loop (referer : string) (keys : list string)
    (resp : list StatResp.t) : M (option (list StatResp.t)) :=
  match keys with
  | [] => ret (Some resp)
  | key :: keys' =>
      vget <- Get ("counters/view" +:+ referer) key ;;
      match vget with
      | inr vbin =>
          match Uint64 vbin with
          | Some v =>
              cget <- Get ("counters/click" +:+ referer) key ;;
              match
                match cget with inr cbin => Uint64 cbin | inl _ => Some 0 end
              with
              | Some c => stat_loop referer keys' (resp ++ [entry key v c])
              | None => ret None
              end
          | None => ret None
          end
      | inl _ => stat_loop referer keys' resp
      end
  end.

(** [fmt.Println(keys)] writes to the standard output only and is left out. *)
Definition Stat (c : Context) : M reply :=
  let referer := Param_referer c in
  if String.eqb (Method c) "GET" then
    ks <- Keys ("counters/view" +:+ referer) ;;
    match ks with
    | inl err => ret (JSON StatusUnprocessableEntity (StoreErrorBody err))
    | inr keys =>
        out <- stat_loop referer keys [] ;;
        match out with
        | Some resp => ret (JSON StatusOK (StatBody resp))
        | None => ret Panicked
        end
    end
  else ret NoReply.

(** Requests as the router delivers them. *)
Definition post (referer : string) (urls : list string) : Context :=
  {| Method := "POST"; Param_referer := "";
     ShouldBind := inr (Hit.Build referer (Some urls)) |}.

Definition get (referer : string) : Context :=
  {| Method := "GET"; Param_referer := referer;
     ShouldBind := inl "EOF" |}.

Definition scenario : M reply :=
  View (post "hotpop" ["url1"; "url2"]) ;;
  View (post "hotpop" ["url1"; "url2"]) ;;
  Click (post "hotpop" ["url1"]) ;;
  Stat (get "hotpop").

(** ** Notions used to state the properties *)

(** The rational a float denotes, in lowest terms; [None] for infinities
    and NaN. *)
Definition SF2Q (x : spec_float) : option Q :=
  match x with
  | S754_zero _ => Some (0 # 1)%Q
  | S754_finite s m e =>
      Some (Qred (inject_Z (if s then Z.neg m else Z.pos m) * Qpower (2 # 1) e))
  | _ => None
  end.

(** The successful increments of [(file, key)] a trace records. *)
Definition is_increment (file key : string) (ev : call) : bool :=
  match ev with
  | CallCounter f k true => bool_decide (f = file ∧ k = key)
  | _ => false
  end.

Definition increments (file key : string) (tr : list call) : nat :=
  length (List.filter (is_increment file key) tr).

(** What the store holds for a pair incremented [n] times. *)
Definition stored (n : nat) : option Z :=
  match n with
  | O => None
  | S _ => Some (Z.of_nat n mod two64)
  end.

(** The invariant of the data model: every counter is the number of
    successful increments of its pair, as a 64-bit unsigned integer, and a
    pair never incremented has no entry. *)
Definition consistent (w : world) : Prop :=
  ∀ file key, counter file key w = stored (increments file key (trace w)).

(** The fault flags the next [n] faulting accesses meet. *)
Fixpoint schedule (n : nat) (fs : list bool) : list bool :=
  match n with
  | O => []
  | S n' => match fs with true :: _ => true | _ => false end :: schedule n' (tail fs)
  end.

(** The events one registration loop leaves, given the flag each increment
    meets, and the number of its increments of [u] that succeed. *)
Fixpoint register_trace (file : string) (urls : list string) (flags : list bool)
    : list call :=
  match urls, flags with
  | u :: urls', bad :: flags' =>
      CallCounter file u (negb bad) :: CallCloseAll :: register_trace file urls' flags'
  | _, _ => []
  end.

Fixpoint added (u : string) (urls : list string) (flags : list bool) : nat :=
  match urls, flags with
  | u' :: urls', bad :: flags' =>
      ((if bool_decide (u' = u) && negb bad then 1 else 0) + added u urls' flags')%nat
  | _, _ => O
  end.

(** The pairs whose increment a trace shows attempted, failed or not. *)
Fixpoint attempts (tr : list call) : list (string * string) :=
  match tr with
  | [] => []
  | CallCounter file key _ :: tr' => (file, key) :: attempts tr'
  | _ :: tr' => attempts tr'
  end.

(** A counter after [n] more successful increments. *)
Definition bump (n : nat) (o : option Z) : option Z :=
  match n with
  | O => o
  | S _ => Some ((default 0 o + Z.of_nat n) mod two64)
  end.

(** The events of a run [c] started in [w]. *)
Definition events {A} (c : M A) (w : world) : list call :=
  drop (length (trace w)) (trace (c w).2).

Definition viewfile (referer : string) : string := "counters/view" +:+ referer.
Definition clickfile (referer : string) : string := "counters/click" +:+ referer.

(** One run of the loop of [Stat] over [keys] from the world [w]: the
    entries it appends, the store events it leaves and the world it ends in.
    A key whose view fetch fails is skipped; a key whose click fetch fails
    is reported with no click. *)
Inductive reports (referer : string)
  : list string -> world -> list StatResp.t -> list call -> world -> Prop :=
| reports_nil w :
    reports referer [] w [] [] w
| reports_skip key keys w e add evs w' :
    (Get (viewfile referer) key w).1 = inl e ->
    reports referer keys (Get (viewfile referer) key w).2 add evs w' ->
    reports referer (key :: keys) w add
            (CallGet (viewfile referer) key false :: evs) w'
| reports_noclick key keys w v e add evs w' :
    (Get (viewfile referer) key w).1 = inr (PutUint64 v) ->
    (Get (clickfile referer) key (Get (viewfile referer) key w).2).1 = inl e ->
    reports referer keys
            (Get (clickfile referer) key (Get (viewfile referer) key w).2).2
            add evs w' ->
    reports referer (key :: keys) w (entry key (v mod two64) 0 :: add)
            (CallGet (viewfile referer) key true
             :: CallGet (clickfile referer) key false :: evs) w'
| reports_click key keys w v c add evs w' :
    (Get (viewfile referer) key w).1 = inr (PutUint64 v) ->
    (Get (clickfile referer) key (Get (viewfile referer) key w).2).1
    = inr (PutUint64 c) ->
    reports referer keys
            (Get (clickfile referer) key (Get (viewfile referer) key w).2).2
            add evs w' ->
    reports referer (key :: keys) w
            (entry key (v mod two64) (c mod two64) :: add)
            (CallGet (viewfile referer) key true
             :: CallGet (clickfile referer) key true :: evs) w'.

(** What holds of an entry [s] reported from the world [w] with the store
    events [evs]: its CTR is computed from its two counts, its views are the
    stored view counter, fetched with success, and its clicks are the stored
    click counter, fetched with success, or 0. *)
Definition fetched (referer : string) (w : world) (evs : list call)
    (s : StatResp.t) : Prop :=
  s = entry (StatResp.Url s) (StatResp.View s) (StatResp.Click s)
  ∧ (∃ v, counter (viewfile referer) (StatResp.Url s) w = Some v
          ∧ StatResp.View s = v mod two64)
  ∧ CallGet (viewfile referer) (StatResp.Url s) true ∈ evs
  ∧ (StatResp.Click s = 0
     ∨ ∃ c, counter (clickfile referer) (StatResp.Url s) w = Some c
            ∧ StatResp.Click s = c mod two64
            ∧ CallGet (clickfile referer) (StatResp.Url s) true ∈ evs).

(** The keys [sp.Keys] lists for a file. *)
Definition listed (file : string) (w : world) : list string :=
  merge_sort String.le (map_to_list (table file w)).*1.

(** ** Sample runs *)

(** The same world under another fault schedule. *)
Definition with_faults (fs : list bool) (w : world) : world :=
  World (files w) fs (trace w).

(** Three views and two clicks of one URL. *)
Definition three_views_two_clicks : world :=
  ((View (post "hotpop" ["url1"]) ;; View (post "hotpop" ["url1"]) ;;
    View (post "hotpop" ["url1"]) ;; Click (post "hotpop" ["url1"]) ;;
    Click (post "hotpop" ["url1"])) fresh).2.

(** Two URLs viewed; one of them and a third URL clicked. *)
Definition clicked_not_viewed : world :=
  ((View (post "hotpop" ["url2"; "url1"]) ;;
    Click (post "hotpop" ["url1"; "url3"])) fresh).2.

(** A request whose JSON body has [urls] set to the empty array, and one
    whose body has no [urls] at all. *)
Definition post_empty (referer : string) : Context := post referer [].

Definition post_nil (referer : string) : Context :=
  {| Method := "POST"; Param_referer := "";
     ShouldBind := inr (Hit.Build referer None) |}.

(** One URL registered three times in a row with another between, the
    store failing on the second increment. *)
Definition second_write_fails : world := with_faults [false; true] fresh.

(** A fresh store whose first write fails. *)
Definition first_write_fails : world := with_faults [true] fresh.

(** The listing and the first view fetch succeed, the click fetch of the
    first key and the view fetch of the second fail. *)
Definition reads_fail : world :=
  with_faults [false; false; true; true] clicked_not_viewed.

(** One URL viewed under the referer B. *)
Definition viewed_under_B : world := (View (post "B" ["url"]) fresh).2.

(** ** The CORS middleware *)

(** The response headers, [http.Header]: a key maps to its list of values.
    [Header().Set] replaces whatever the key held by the one value; the keys
    set below are already in canonical form. *)
Definition Set_header (k v : string) (hs : gmap string (list string))
    : gmap string (list string) :=
  <[k := [v]]> hs.

(** How a middleware leaves the chain: [Aborted code] after
    [c.AbortWithStatus(code)], the handlers after it skipped; [Passed r]
    after [c.Next()], [r] being what the rest of the chain replied. *)
Inductive answer :=
| Aborted (code : Z)
| Passed (r : reply).

(** The handler [CORSMiddleware()] returns, in front of the rest of the
    chain [next], on the response headers [hs]. *)
Definition CORSMiddleware (next : Context -> M reply) (c : Context)
    (hs : gmap string (list string))
    : M (gmap string (list string) * answer) :=
  let hs := Set_header "Access-Control-Allow-Origin" "*" hs in
  let hs := Set_header "Access-Control-Max-Age" "86400" hs in
  let hs := Set_header "Access-Control-Allow-Methods"
                       "POST, GET, OPTIONS, PUT, DELETE, UPDATE" hs in
  let hs := Set_header "Access-Control-Allow-Headers"
              "Origin, Content-Type, Content-Length, Accept-Encoding, X-CSRF-Token, Authorization"
              hs in
  let hs := Set_header "Access-Control-Expose-Headers" "Content-Length" hs in
  let hs := Set_header "Access-Control-Allow-Credentials" "true" hs in
  if String.eqb (Method c) "OPTIONS" then
    ret (hs, Aborted 200)
  else
    r <- next c ;; ret (hs, Passed r).

(** The headers the middleware sets, with their values. *)
Definition cors_headers : list (string * string) :=
  [ ("Access-Control-Allow-Origin", "*");
    ("Access-Control-Max-Age", "86400");
    ("Access-Control-Allow-Methods", "POST, GET, OPTIONS, PUT, DELETE, UPDATE");
    ("Access-Control-Allow-Headers",
     "Origin, Content-Type, Content-Length, Accept-Encoding, X-CSRF-Token, Authorization");
    ("Access-Control-Expose-Headers", "Content-Length");
    ("Access-Control-Allow-Credentials", "true") ].

(** ** Further notions *)

(** The keys a trace shows fetched from [file], in order. *)
Fixpoint gets (file : string) (tr : list call) : list string :=
  match tr with
  | [] => []
  | CallGet f k _ :: tr' =>
      if decide (f = file) then k :: gets file tr' else gets file tr'
  | _ :: tr' => gets file tr'
  end.

(** The report of [referer] read off the store: one entry per key of the
    view file, in the order of the listing, with the stored counts. *)
Definition report_of (referer : string) (w : world) : list StatResp.t :=
  map (λ key,
         entry key
               (default 0 (counter (viewfile referer) key w) mod two64)
               (default 0 (counter (clickfile referer) key w) mod two64))
      (listed (viewfile referer) w).

(** A preflight request. *)
Definition preflight (referer : string) : Context :=
  {| Method := "OPTIONS"; Param_referer := referer; ShouldBind := inl "EOF" |}.

(** ** Big-endian decoding inverts encoding *)

Lemma byte_shift_bit (v k n : Z) :
  0 <= k -> 0 <= n ->
  Z.testbit (Z.shiftl (byte (Z.shiftr v k)) k) n
  = (k <=? n) && (n <? k + 8) && Z.testbit v n.
Proof.
  intros Hk Hn. rewrite Z.shiftl_spec by lia. unfold byte.
  rewrite Z.land_spec.
  destruct (Z.leb_spec k n) as [Hle|Hlt]; simpl.
  - rewrite Z.shiftr_spec by lia. replace (n - k + k) with n by lia.
    change 255 with (Z.ones 8). rewrite Z.testbit_ones_nonneg by lia.
    rewrite andb_comm. f_equal.
    destruct (Z.ltb_spec (n - k) 8), (Z.ltb_spec n (k + 8)); auto; lia.
  - rewrite (Z.testbit_neg_r _ (n - k)) by lia. reflexivity.
Qed.

Lemma Uint64_PutUint64 (v : Z) : Uint64 (PutUint64 v) = Some (v mod two64).
Proof.
  unfold PutUint64, Uint64. f_equal.
  replace (byte v) with (Z.shiftl (byte (Z.shiftr v 0)) 0)
    by (now rewrite Z.shiftl_0_r, Z.shiftr_0_r).
  apply Z.bits_inj'. intros n Hn. unfold two64.
  rewrite Z.testbit_mod_pow2 by lia.
  rewrite !Z.lor_spec, !byte_shift_bit by lia.
  destruct (Z.testbit v n); rewrite ?andb_false_r; [|reflexivity].
  rewrite !andb_true_r.
  repeat (match goal with
          | |- context [?a <=? ?b] => destruct (Z.leb_spec a b)
          | |- context [?a <? ?b] => destruct (Z.ltb_spec a b)
          end; try lia; simpl); reflexivity.
Qed.

(** ** The monad *)

Lemma bind_run {A B} (c : M A) (k : A -> M B) (w : world) :
  bind c k w = k (c w).1 (c w).2.
Proof. unfold bind. now destruct (c w). Qed.

(** ** The store operations, case by case *)

Lemma counter_insert (file key f k : string) (n : Z) (ev : call) (w : world) :
  counter f k (accessed (<[file := <[key := n]> (table file w)]> (files w)) ev w)
  = if decide (f = file ∧ k = key) then Some n else counter f k w.
Proof.
  unfold counter, table, accessed; simpl.
  destruct (decide (f = file)) as [->|Hf].
  - rewrite lookup_insert_eq; simpl.
    destruct (decide (k = key)) as [->|Hk].
    + rewrite lookup_insert_eq. now rewrite decide_True.
    + rewrite lookup_insert_ne by congruence.
      rewrite decide_False; [reflexivity | tauto].
  - rewrite lookup_insert_ne by congruence.
    rewrite decide_False; [reflexivity | tauto].
Qed.

Lemma Counter_counter (file key f k : string) (w : world) :
  counter f k (Counter file key w).2
  = if faulty w then counter f k w
    else if decide (f = file ∧ k = key)
         then Some ((default 0 (counter file key w) + 1) mod two64)
         else counter f k w.
Proof.
  unfold Counter. destruct (faulty w); simpl; [reflexivity|].
  apply counter_insert.
Qed.

Lemma Counter_trace (file key : string) (w : world) :
  trace (Counter file key w).2
  = trace w ++ [CallCounter file key (negb (faulty w))].
Proof. unfold Counter. now destruct (faulty w). Qed.

Lemma Counter_faults (file key : string) (w : world) :
  faults (Counter file key w).2 = tail (faults w).
Proof. unfold Counter. now destruct (faulty w). Qed.

Lemma Counter_result (file key : string) (w : world) :
  (Counter file key w).1
  = if faulty w then inl ErrIO
    else inr ((default 0 (counter file key w) + 1) mod two64).
Proof. unfold Counter. now destruct (faulty w). Qed.

Lemma Get_world (file key : string) (w : world) :
  ∃ ok, (Get file key w).2 = accessed (files w) (CallGet file key ok) w
        ∧ (ok = true ↔ ∃ v, (Get file key w).1 = inr (PutUint64 v)
                            ∧ faulty w = false ∧ counter file key w = Some v)
        ∧ (ok = false ↔ ∃ e, (Get file key w).1 = inl e).
Proof.
  unfold Get. destruct (faulty w).
  - exists false. simpl. split; [reflexivity|]. split; split; try discriminate.
    + intros (v & Hv & _). discriminate.
    + eauto.
    + reflexivity.
  - destruct (counter file key w) as [v|].
    + exists true. simpl. split; [reflexivity|]. split; split; try discriminate.
      * eauto.
      * reflexivity.
      * intros (e & He). discriminate.
    + exists false. simpl. split; [reflexivity|]. split; split; try discriminate.
      * intros (v & Hv & _). discriminate.
      * eauto.
      * reflexivity.
Qed.

Lemma Get_files (file key : string) (w : world) :
  files (Get file key w).2 = files w.
Proof. destruct (Get_world file key w) as (ok & -> & _). reflexivity. Qed.

Lemma Get_faults (file key : string) (w : world) :
  faults (Get file key w).2 = tail (faults w).
Proof. destruct (Get_world file key w) as (ok & -> & _). reflexivity. Qed.

Lemma counter_files (f k : string) (w w' : world) :
  files w' = files w -> counter f k w' = counter f k w.
Proof. unfold counter, table. now intros ->. Qed.

(** ** The invariant *)

Lemma increments_snoc (file key : string) (tr : list call) (ev : call) :
  increments file key (tr ++ [ev])
  = (increments file key tr + if is_increment file key ev then 1 else 0)%nat.
Proof.
  unfold increments. rewrite List.filter_app, length_app. simpl.
  now destruct (is_increment file key ev).
Qed.

Lemma increments_app (file key : string) (tr tr' : list call) :
  increments file key (tr ++ tr')
  = (increments file key tr + increments file key tr')%nat.
Proof. unfold increments. now rewrite List.filter_app, length_app. Qed.

Lemma stored_succ (n : nat) :
  Some ((default 0 (stored n) + 1) mod two64) = stored (n + 1).
Proof.
  destruct n as [|n]; [reflexivity|].
  replace (S n + 1)%nat with (S (S n)) by lia.
  unfold stored, default, from_option, id. f_equal.
  rewrite Z.add_mod_idemp_l by discriminate. f_equal. lia.
Qed.

Lemma consistent_fresh : consistent fresh.
Proof. intros file key. reflexivity. Qed.

Lemma consistent_Counter (file key : string) (w : world) :
  consistent w -> consistent (Counter file key w).2.
Proof.
  intros H f k. rewrite Counter_counter, Counter_trace, increments_snoc.
  destruct (faulty w); simpl.
  - rewrite Nat.add_0_r. apply H.
  - destruct (decide (f = file ∧ k = key)) as [[-> ->]|Hne].
    + rewrite bool_decide_eq_true_2 by tauto. rewrite H. apply stored_succ.
    + rewrite bool_decide_eq_false_2 by (intros [-> ->]; tauto).
      rewrite Nat.add_0_r. apply H.
Qed.

Lemma consistent_with_faults (fs : list bool) (w : world) :
  consistent w -> consistent (with_faults fs w).
Proof. intros H file key. apply H. Qed.

Lemma consistent_silent (w w' : world) (evs : list call) :
  files w' = files w -> trace w' = trace w ++ evs ->
  (∀ file key, increments file key evs = O) ->
  consistent w -> consistent w'.
Proof.
  intros Hf Ht Hevs H file key.
  rewrite (counter_files _ _ _ _ Hf), Ht, increments_app, Hevs, Nat.add_0_r.
  apply H.
Qed.

(** ** The registration loop *)

Lemma CloseAll_world (w : world) :
  (CloseAll w).2 = World (files w) (faults w) (trace w ++ [CallCloseAll]).
Proof. reflexivity. Qed.

Lemma register_cons (file u : string) (urls : list string) (w : world) :
  register file (u :: urls) w
  = register file urls (CloseAll (Counter file u w).2).2.
Proof. simpl. now rewrite !bind_run. Qed.

Lemma bump_succ (a : nat) (o : option Z) :
  bump a (Some ((default 0 o + 1) mod two64)) = bump (S a) o.
Proof.
  destruct a as [|a]; [reflexivity|].
  unfold bump, default, from_option, id. f_equal.
  rewrite Z.add_mod_idemp_l by discriminate. f_equal. lia.
Qed.

Lemma register_spec (file : string) (urls : list string) (w : world) :
  let flags := schedule (length urls) (faults w) in
  let w' := (register file urls w).2 in
  trace w' = trace w ++ register_trace file urls flags
  ∧ faults w' = drop (length urls) (faults w)
  ∧ ∀ f u, counter f u w'
           = if decide (f = file)
             then bump (added u urls flags) (counter f u w)
             else counter f u w.
Proof.
  revert w. induction urls as [|u' urls IH]; intros w.
  - simpl. rewrite app_nil_r. repeat split; [].
    intros f u. now destruct (decide (f = file)).
  - rewrite register_cons.
    set (w1 := (CloseAll (Counter file u' w).2).2).
    destruct (IH w1) as (Ht & Hf & Hc).
    assert (Hf1 : faults w1 = tail (faults w))
      by (unfold w1; rewrite CloseAll_world; simpl; apply Counter_faults).
    assert (Ht1 : trace w1
                  = trace w ++ [CallCounter file u' (negb (faulty w)); CallCloseAll]).
    { unfold w1. rewrite CloseAll_world; simpl. rewrite Counter_trace.
      now rewrite <- app_assoc. }
    assert (Hc1 : ∀ f u, counter f u w1 = counter f u (Counter file u' w).2)
      by (intros; apply counter_files; reflexivity).
    rewrite Hf1 in Ht, Hf, Hc. simpl. fold (faulty w).
    split; [|split].
    + rewrite Ht, Ht1, <- app_assoc. reflexivity.
    + rewrite Hf. destruct (faults w); simpl; [now rewrite drop_nil | reflexivity].
    + intros f u. rewrite Hc, !Hc1, Counter_counter.
      destruct (decide (f = file)) as [->|Hne].
      * destruct (faulty w); simpl; [now rewrite andb_false_r|].
        rewrite andb_true_r.
        destruct (decide (u = u')) as [->|Hu].
        -- rewrite decide_True by tauto. rewrite bool_decide_eq_true_2 by reflexivity.
           apply bump_succ.
        -- rewrite decide_False by tauto.
           now rewrite bool_decide_eq_false_2 by congruence.
      * destruct (faulty w); [reflexivity|].
        rewrite decide_False by tauto. reflexivity.
Qed.

Lemma register_consistent (file : string) (urls : list string) (w : world) :
  consistent w -> consistent (register file urls w).2.
Proof.
  revert w. induction urls as [|u urls IH]; intros w H; [exact H|].
  rewrite register_cons. apply IH.
  apply (consistent_silent (Counter file u w).2 _ [CallCloseAll]);
    [reflexivity | reflexivity | reflexivity |].
  now apply consistent_Counter.
Qed.

Lemma schedule_nil (n : nat) : schedule n [] = replicate n false.
Proof. induction n as [|n IH]; simpl; [reflexivity|]. now rewrite IH. Qed.

Lemma added_no_fault (u : string) (urls : list string) :
  added u urls (replicate (length urls) false) = count_occ String.eq_dec urls u.
Proof.
  induction urls as [|u' urls IH]; simpl; [reflexivity|].
  rewrite IH, andb_true_r.
  destruct (String.eq_dec u' u) as [->|Hne].
  - now rewrite bool_decide_eq_true_2.
  - now rewrite bool_decide_eq_false_2.
Qed.

(** ** Reading: [Get] and [Keys] *)

Lemma Get_ok_inv (file key : string) (w : world) (b : list Z) :
  (Get file key w).1 = inr b ->
  ∃ v, b = PutUint64 v ∧ faulty w = false ∧ counter file key w = Some v
       ∧ (Get file key w).2 = accessed (files w) (CallGet file key true) w.
Proof.
  unfold Get. destruct (faulty w); [discriminate|].
  destruct (counter file key w) as [v|]; [|discriminate].
  simpl. intros [= <-]. eauto.
Qed.

Lemma Get_err_inv (file key : string) (w : world) (e : sp_error) :
  (Get file key w).1 = inl e ->
  (Get file key w).2 = accessed (files w) (CallGet file key false) w
  ∧ (faulty w = true ∨ counter file key w = None).
Proof.
  unfold Get. destruct (faulty w); [auto|].
  destruct (counter file key w) as [v|]; [discriminate|]. auto.
Qed.

Lemma Keys_no_fault (file : string) (w : world) :
  faulty w = false ->
  Keys file w = (inr (listed file w), accessed (files w) (CallKeys file true) w).
Proof. unfold Keys. now intros ->. Qed.

Lemma Keys_fault (file : string) (w : world) :
  faulty w = true ->
  Keys file w = (inl ErrIO, accessed (files w) (CallKeys file false) w).
Proof. unfold Keys. now intros ->. Qed.

Lemma listed_elem (file key : string) (w : world) :
  key ∈ listed file w ↔ is_Some (counter file key w).
Proof.
  unfold listed, counter. rewrite merge_sort_Permutation.
  rewrite list_elem_of_fmap. split.
  - intros ([k v] & -> & Hin). apply elem_of_map_to_list in Hin. simpl. eauto.
  - intros [v Hv]. exists (key, v). split; [reflexivity|].
    now apply elem_of_map_to_list.
Qed.

Lemma listed_NoDup (file : string) (w : world) : NoDup (listed file w).
Proof.
  unfold listed. rewrite merge_sort_Permutation. apply NoDup_fst_map_to_list.
Qed.

Lemma listed_sorted (file : string) (w : world) :
  StronglySorted String.le (listed file w).
Proof. unfold listed. apply (StronglySorted_merge_sort _). Qed.

Lemma viewfile_ne_clickfile (r r' : string) : viewfile r ≠ clickfile r'.
Proof. unfold viewfile, clickfile. intros H. cbv in H. discriminate H. Qed.

Lemma viewfile_inj (r r' : string) : viewfile r = viewfile r' -> r = r'.
Proof. unfold viewfile. apply String.app_inj. Qed.

Lemma clickfile_inj (r r' : string) : clickfile r = clickfile r' -> r = r'.
Proof. unfold clickfile. apply String.app_inj. Qed.

(** ** The loop of [Stat] *)

Lemma stat_loop_reports (referer : string) (keys : list string)
    (resp : list StatResp.t) (w : world) :
  ∃ add evs w',
    stat_loop referer keys resp w = (Some (resp ++ add), w')
    ∧ reports referer keys w add evs w'.
Proof.
  revert resp w. induction keys as [|key keys IH]; intros resp w.
  - exists [], [], w. simpl. rewrite app_nil_r. split; [reflexivity|constructor].
  - simpl. rewrite bind_run.
    change ("counters/view" +:+ referer) with (viewfile referer).
    change ("counters/click" +:+ referer) with (clickfile referer).
    destruct ((Get (viewfile referer) key w).1) as [e|vbin] eqn:Ev.
    + destruct (IH resp (Get (viewfile referer) key w).2)
        as (add & evs & w' & Hrun & Hrep).
      exists add, (CallGet (viewfile referer) key false :: evs), w'.
      split; [exact Hrun|]. eapply reports_skip; eauto.
    + destruct (Get_ok_inv _ _ _ _ Ev) as (v & -> & _).
      rewrite Uint64_PutUint64, bind_run.
      set (w1 := (Get (viewfile referer) key w).2) in *.
      destruct ((Get (clickfile referer) key w1).1) as [e|cbin] eqn:Ec.
      * destruct (IH (resp ++ [entry key (v mod two64) 0])
                     (Get (clickfile referer) key w1).2)
          as (add & evs & w' & Hrun & Hrep).
        eexists (_ :: add), _, w'. rewrite Hrun, <- app_assoc.
        split; [reflexivity|]. eapply reports_noclick; eauto.
      * destruct (Get_ok_inv _ _ _ _ Ec) as (c & -> & _).
        rewrite Uint64_PutUint64.
        destruct (IH (resp ++ [entry key (v mod two64) (c mod two64)])
                     (Get (clickfile referer) key w1).2)
          as (add & evs & w' & Hrun & Hrep).
        eexists (_ :: add), _, w'. rewrite Hrun, <- app_assoc.
        split; [reflexivity|]. eapply reports_click; eauto.
Qed.

Lemma reports_world (referer : string) keys w add evs w' :
  reports referer keys w add evs w' ->
  files w' = files w ∧ trace w' = trace w ++ evs.
Proof.
  induction 1 as [w|key keys w e add evs w' Hv _ [IHf IHt]
                 |key keys w v e add evs w' Hv Hc _ [IHf IHt]
                 |key keys w v c add evs w' Hv Hc _ [IHf IHt]].
  - now rewrite app_nil_r.
  - destruct (Get_err_inv _ _ _ _ Hv) as [Hw _]. rewrite Hw in IHf, IHt.
    simpl in *. rewrite IHt, <- app_assoc. auto.
  - destruct (Get_ok_inv _ _ _ _ Hv) as (? & _ & _ & _ & Hw).
    destruct (Get_err_inv _ _ _ _ Hc) as [Hw1 _].
    rewrite Hw1, Hw in IHf, IHt. simpl in *.
    rewrite IHt, <- !app_assoc. auto.
  - destruct (Get_ok_inv _ _ _ _ Hv) as (? & _ & _ & _ & Hw).
    destruct (Get_ok_inv _ _ _ _ Hc) as (? & _ & _ & _ & Hw1).
    rewrite Hw1, Hw in IHf, IHt. simpl in *.
    rewrite IHt, <- !app_assoc. auto.
Qed.

Lemma reports_sublist (referer : string) keys w add evs w' :
  reports referer keys w add evs w' ->
  sublist (map StatResp.Url add) keys.
Proof.
  induction 1; simpl.
  - constructor.
  - now apply sublist_cons.
  - now apply sublist_skip.
  - now apply sublist_skip.
Qed.

Lemma fetched_mono (referer : string) (w w1 : world) (evs evs' : list call)
    (s : StatResp.t) :
  files w1 = files w -> (∀ ev, ev ∈ evs -> ev ∈ evs') ->
  fetched referer w1 evs s -> fetched referer w evs' s.
Proof.
  intros Hf Hsub (Hs & (v & Hv & Hview) & Hev & Hclick).
  rewrite (counter_files _ _ _ _ Hf) in Hv.
  split; [exact Hs|]. split; [eauto|]. split; [auto|].
  destruct Hclick as [Hz|(c & Hc & Hcl & Hin)]; [now left|right].
  rewrite (counter_files _ _ _ _ Hf) in Hc. eauto 6.
Qed.

Lemma reports_fetched (referer : string) keys w add evs w' :
  reports referer keys w add evs w' -> Forall (fetched referer w evs) add.
Proof.
  induction 1 as [w|key keys w e add evs w' Hv _ IH
                 |key keys w v e add evs w' Hv Hc _ IH
                 |key keys w v c add evs w' Hv Hc _ IH].
  - constructor.
  - eapply Forall_impl; [exact IH|]. intros s. apply fetched_mono.
    + apply Get_files.
    + intros ev Hin. now apply elem_of_cons; right.
  - destruct (Get_ok_inv _ _ _ _ Hv) as (v0 & Hv0 & _ & Hcv & _).
    constructor.
    + split; [reflexivity|]. split; [|split; [|now left]].
      * exists v0. split; [exact Hcv|]. simpl.
        apply (f_equal Uint64) in Hv0. rewrite !Uint64_PutUint64 in Hv0.
        now injection Hv0.
      * simpl. apply elem_of_cons; now left.
    + eapply Forall_impl; [exact IH|]. intros s. apply fetched_mono.
      * now rewrite !Get_files.
      * intros ev Hin. do 2 (apply elem_of_cons; right). exact Hin.
  - destruct (Get_ok_inv _ _ _ _ Hv) as (v0 & Hv0 & _ & Hcv & _).
    destruct (Get_ok_inv _ _ _ _ Hc) as (c0 & Hc0 & Hfc & Hcc & _).
    rewrite (counter_files _ _ w) in Hcc by apply Get_files.
    constructor.
    + split; [reflexivity|]. split; [|split].
      * exists v0. split; [exact Hcv|]. simpl.
        apply (f_equal Uint64) in Hv0. rewrite !Uint64_PutUint64 in Hv0.
        now injection Hv0.
      * simpl. apply elem_of_cons; now left.
      * right. exists c0. split; [exact Hcc|]. simpl. split.
        -- apply (f_equal Uint64) in Hc0. rewrite !Uint64_PutUint64 in Hc0.
           now injection Hc0.
        -- apply elem_of_cons; right. apply elem_of_cons; now left.
    + eapply Forall_impl; [exact IH|]. intros s. apply fetched_mono.
      * now rewrite !Get_files.
      * intros ev Hin. do 2 (apply elem_of_cons; right). exact Hin.
Qed.

Lemma reports_events (referer : string) keys w add evs w' :
  reports referer keys w add evs w' ->
  Forall (λ ev, ∃ k ok, k ∈ keys ∧ (ev = CallGet (viewfile referer) k ok
                                    ∨ ev = CallGet (clickfile referer) k ok))
         evs.
Proof.
  assert (Hmono : ∀ key keys evs,
    Forall (λ ev, ∃ k ok, k ∈ keys ∧ (ev = CallGet (viewfile referer) k ok
                                      ∨ ev = CallGet (clickfile referer) k ok))
           evs ->
    Forall (λ ev, ∃ k ok, k ∈ key :: keys
                          ∧ (ev = CallGet (viewfile referer) k ok
                             ∨ ev = CallGet (clickfile referer) k ok)) evs).
  { intros key0 keys0 evs0 H0. eapply Forall_impl; [exact H0|].
    intros ev (k & ok & Hin & Hev).
    exists k, ok. split; [now apply elem_of_cons; right | exact Hev]. }
  induction 1; repeat constructor; auto;
    eexists _, _; (split; [apply elem_of_cons; left; reflexivity | auto]).
Qed.

Lemma reports_quiet (referer : string) keys w add evs w' :
  reports referer keys w add evs w' ->
  ∀ file key, increments file key evs = O.
Proof. induction 1; intros file0 key0; unfold increments in *; simpl; auto. Qed.

Lemma reports_produced (referer : string) keys w add evs w' :
  reports referer keys w add evs w' ->
  ∀ key, CallGet (viewfile referer) key true ∈ evs ->
         key ∈ map StatResp.Url add.
Proof.
  induction 1 as [w|key0 keys w e add evs w' Hv _ IH
                 |key0 keys w v e add evs w' Hv Hc _ IH
                 |key0 keys w v c add evs w' Hv Hc _ IH]; intros key Hin; simpl.
  - inversion Hin.
  - apply elem_of_cons in Hin as [Heq|Hin]; [discriminate|auto].
  - apply elem_of_cons in Hin as [Heq|Hin].
    { apply elem_of_cons; left. congruence. }
    apply elem_of_cons in Hin as [Heq|Hin].
    { pose proof (viewfile_ne_clickfile referer referer). congruence. }
    apply elem_of_cons; right; auto.
  - apply elem_of_cons in Hin as [Heq|Hin].
    { apply elem_of_cons; left. congruence. }
    apply elem_of_cons in Hin as [Heq|Hin].
    { pose proof (viewfile_ne_clickfile referer referer). congruence. }
    apply elem_of_cons; right; auto.
Qed.

Lemma reports_omitted (referer : string) keys w add evs w' :
  reports referer keys w add evs w' -> NoDup keys ->
  ∀ key, CallGet (viewfile referer) key false ∈ evs ->
         key ∉ map StatResp.Url add.
Proof.
  induction 1 as [w|key0 keys w e add evs w' Hv Hrep IH
                 |key0 keys w v e add evs w' Hv Hc Hrep IH
                 |key0 keys w v c add evs w' Hv Hc Hrep IH];
    intros Hnd key Hin; simpl.
  - inversion Hin.
  - apply NoDup_cons in Hnd as [Hnotin Hnd].
    apply elem_of_cons in Hin as [Heq|Hin]; [|auto].
    assert (key = key0) as -> by congruence.
    intros Hk. apply Hnotin.
    eapply elem_of_sublist; [exact Hk|]. eapply reports_sublist; eauto.
  - apply NoDup_cons in Hnd as [Hnotin Hnd].
    apply elem_of_cons in Hin as [Heq|Hin]; [discriminate|].
    apply elem_of_cons in Hin as [Heq|Hin].
    { pose proof (viewfile_ne_clickfile referer referer). congruence. }
    intros [->|Hk]%elem_of_cons; [|now apply (IH Hnd key)].
    apply reports_events in Hrep.
    rewrite Forall_forall in Hrep.
    destruct (Hrep _ Hin) as (k & ok & Hkin & [Hev|Hev]).
    + assert (key0 = k) as -> by congruence. auto.
    + pose proof (viewfile_ne_clickfile referer referer). congruence.
  - apply NoDup_cons in Hnd as [Hnotin Hnd].
    apply elem_of_cons in Hin as [Heq|Hin]; [discriminate|].
    apply elem_of_cons in Hin as [Heq|Hin].
    { pose proof (viewfile_ne_clickfile referer referer). congruence. }
    intros [->|Hk]%elem_of_cons; [|now apply (IH Hnd key)].
    apply reports_events in Hrep.
    rewrite Forall_forall in Hrep.
    destruct (Hrep _ Hin) as (k & ok & Hkin & [Hev|Hev]).
    + assert (key0 = k) as -> by congruence. auto.
    + pose proof (viewfile_ne_clickfile referer referer). congruence.
Qed.

Lemma faulty_nil (w : world) : faults w = [] -> faulty w = false.
Proof. unfold faulty. now intros ->. Qed.

Lemma reports_no_fault (referer : string) keys w add evs w' :
  reports referer keys w add evs w' ->
  faults w = [] ->
  (∀ k, k ∈ keys -> is_Some (counter (viewfile referer) k w)) ->
  map StatResp.Url add = keys
  ∧ Forall (λ s, StatResp.Click s
                 = default 0 (counter (clickfile referer) (StatResp.Url s) w)
                   mod two64) add.
Proof.
  induction 1 as [w|key0 keys w e add evs w' Hv Hrep IH
                 |key0 keys w v e add evs w' Hv Hc Hrep IH
                 |key0 keys w v c add evs w' Hv Hc Hrep IH];
    intros Hnf Hall.
  - split; [reflexivity|constructor].
  - exfalso. destruct (Get_err_inv _ _ _ _ Hv) as [_ [Hf|Hnone]].
    + rewrite faulty_nil in Hf by assumption. discriminate.
    + destruct (Hall key0) as [x Hx]; [apply elem_of_cons; now left|].
      congruence.
  - set (w1 := (Get (viewfile referer) key0 w).2) in *.
    assert (Hnf1 : faults w1 = [])
      by (unfold w1; rewrite Get_faults, Hnf; reflexivity).
    assert (Hf1 : files w1 = files w) by apply Get_files.
    destruct IH as [IHu IHc].
    { now rewrite Get_faults, Hnf1. }
    { intros k Hk. rewrite (counter_files _ _ w) by now rewrite Get_files.
      apply Hall. apply elem_of_cons; now right. }
    split; [simpl; now rewrite IHu|].
    constructor.
    + simpl. destruct (Get_err_inv _ _ _ _ Hc) as [_ [Hf|Hnone]].
      * rewrite faulty_nil in Hf by assumption. discriminate.
      * rewrite (counter_files _ _ w) in Hnone by assumption.
        now rewrite Hnone.
    + eapply Forall_impl; [exact IHc|]. intros s ->.
      now rewrite (counter_files _ _ w) by now rewrite Get_files.
  - set (w1 := (Get (viewfile referer) key0 w).2) in *.
    assert (Hnf1 : faults w1 = [])
      by (unfold w1; rewrite Get_faults, Hnf; reflexivity).
    assert (Hf1 : files w1 = files w) by apply Get_files.
    destruct IH as [IHu IHc].
    { now rewrite Get_faults, Hnf1. }
    { intros k Hk. rewrite (counter_files _ _ w) by now rewrite Get_files.
      apply Hall. apply elem_of_cons; now right. }
    split; [simpl; now rewrite IHu|].
    constructor.
    + simpl. destruct (Get_ok_inv _ _ _ _ Hc) as (c0 & Hc0 & _ & Hcc & _).
      rewrite (counter_files _ _ w) in Hcc by assumption.
      rewrite Hcc. simpl.
      apply (f_equal Uint64) in Hc0. rewrite !Uint64_PutUint64 in Hc0.
      now injection Hc0.
    + eapply Forall_impl; [exact IHc|]. intros s ->.
      now rewrite (counter_files _ _ w) by now rewrite Get_files.
Qed.

(** ** The handlers as a whole *)

Lemma Stat_GET (c : Context) (w : world) :
  Method c = "GET" ->
  let file := viewfile (Param_referer c) in
  if faulty w then
    Stat c w = (JSON StatusUnprocessableEntity (StoreErrorBody ErrIO),
                accessed (files w) (CallKeys file false) w)
  else
    ∃ add evs w',
      reports (Param_referer c) (listed file w)
              (accessed (files w) (CallKeys file true) w) add evs w'
      ∧ Stat c w = (JSON StatusOK (StatBody add), w').
Proof.
  intros Hm file. unfold Stat. rewrite Hm. simpl. rewrite bind_run.
  change ("counters/view" +:+ Param_referer c) with file.
  destruct (faulty w) eqn:Hf.
  - now rewrite Keys_fault by assumption.
  - rewrite Keys_no_fault by assumption. simpl. rewrite bind_run.
    destruct (stat_loop_reports (Param_referer c) (listed file w) []
                (accessed (files w) (CallKeys file true) w))
      as (add & evs & w' & Hrun & Hrep).
    exists add, evs, w'. split; [exact Hrep|]. now rewrite Hrun.
Qed.

Lemma POST_View (c : Context) (h : Hit.t) (urls : list string) (w : world) :
  Method c = "POST" -> ShouldBind c = inr h -> Hit.Urls h = Some urls ->
  View c w = (JSON StatusOK (HitBody h),
              (register (viewfile (Hit.Referer h)) urls w).2).
Proof.
  intros Hm Hb Hu. unfold View. rewrite Hm, Hb, Hu. simpl.
  now rewrite bind_run.
Qed.

Lemma POST_Click (c : Context) (h : Hit.t) (urls : list string) (w : world) :
  Method c = "POST" -> ShouldBind c = inr h -> Hit.Urls h = Some urls ->
  Click c w = (JSON StatusOK (HitBody h),
               (register (clickfile (Hit.Referer h)) urls w).2).
Proof.
  intros Hm Hb Hu. unfold Click. rewrite Hm, Hb, Hu. simpl.
  now rewrite bind_run.
Qed.

Lemma reports_click_once (referer : string) keys w add evs w' :
  reports referer keys w add evs w' -> NoDup keys ->
  ∀ key, CallGet (clickfile referer) key false ∈ evs ->
         CallGet (clickfile referer) key true ∈ evs -> False.
Proof.
  pose proof (viewfile_ne_clickfile referer referer) as Hne.
  induction 1 as [w|key0 keys w e add evs w' Hv Hrep IH
                 |key0 keys w v e add evs w' Hv Hc Hrep IH
                 |key0 keys w v c add evs w' Hv Hc Hrep IH];
    intros Hnd key Hno Hyes.
  - inversion Hno.
  - apply NoDup_cons in Hnd as [_ Hnd].
    apply elem_of_cons in Hno as [Heq|Hno]; [congruence|].
    apply elem_of_cons in Hyes as [Heq|Hyes]; [congruence|].
    eauto.
  - apply NoDup_cons in Hnd as [Hnotin Hnd].
    apply elem_of_cons in Hyes as [Heq|Hyes]; [congruence|].
    apply elem_of_cons in Hyes as [Heq|Hyes]; [congruence|].
    apply elem_of_cons in Hno as [Heq|Hno]; [congruence|].
    apply elem_of_cons in Hno as [Heq|Hno]; [|eauto].
    apply reports_events in Hrep. rewrite Forall_forall in Hrep.
    destruct (Hrep _ Hyes) as (k & ok & Hkin & [Hev|Hev]); [congruence|].
    apply Hnotin. congruence.
  - apply NoDup_cons in Hnd as [Hnotin Hnd].
    apply elem_of_cons in Hno as [Heq|Hno]; [congruence|].
    apply elem_of_cons in Hno as [Heq|Hno]; [congruence|].
    apply elem_of_cons in Hyes as [Heq|Hyes]; [congruence|].
    apply elem_of_cons in Hyes as [Heq|Hyes]; [|eauto].
    apply reports_events in Hrep. rewrite Forall_forall in Hrep.
    destruct (Hrep _ Hno) as (k & ok & Hkin & [Hev|Hev]); [congruence|].
    apply Hnotin. congruence.
Qed.

Lemma Stat_OK_inv (c : Context) (w : world) (resp : list StatResp.t) :
  (Stat c w).1 = JSON StatusOK (StatBody resp) ->
  let file := viewfile (Param_referer c) in
  Method c = "GET" ∧ faulty w = false
  ∧ ∃ evs,
      reports (Param_referer c) (listed file w)
              (accessed (files w) (CallKeys file true) w) resp evs (Stat c w).2.
Proof.
  intros H file.
  destruct (String.eqb (Method c) "GET") eqn:Hm.
  - apply String.eqb_eq in Hm. pose proof (Stat_GET c w Hm) as HS.
    simpl in HS. fold file in HS. destruct (faulty w).
    + rewrite HS in H. discriminate H.
    + destruct HS as (add & evs & w' & Hrep & HS). rewrite HS in H |- *.
      simpl in H. injection H as ->. eauto.
  - unfold Stat in H. rewrite Hm in H. discriminate H.
Qed.

Lemma events_app {A} (c : M A) (w : world) (evs : list call) :
  trace (c w).2 = trace w ++ evs -> events c w = evs.
Proof. unfold events. intros ->. apply drop_app_length. Qed.

(** ** The handlers keep the invariant *)

Lemma consistent_View (c : Context) (w : world) :
  consistent w -> consistent (View c w).2.
Proof.
  intros H. unfold View.
  destruct (String.eqb (Method c) "POST"); [|exact H].
  destruct (ShouldBind c) as [err|h]; [exact H|].
  destruct (Hit.Urls h) as [urls|]; [|exact H].
  rewrite bind_run. now apply register_consistent.
Qed.

Lemma consistent_Click (c : Context) (w : world) :
  consistent w -> consistent (Click c w).2.
Proof.
  intros H. unfold Click.
  destruct (String.eqb (Method c) "POST"); [|exact H].
  destruct (ShouldBind c) as [err|h]; [exact H|].
  destruct (Hit.Urls h) as [urls|]; [|exact H].
  rewrite bind_run. now apply register_consistent.
Qed.

Lemma consistent_Stat (c : Context) (w : world) :
  consistent w -> consistent (Stat c w).2.
Proof.
  intros H. destruct (String.eqb (Method c) "GET") eqn:Hm.
  - apply String.eqb_eq in Hm. pose proof (Stat_GET c w Hm) as HS.
    simpl in HS. destruct (faulty w).
    + rewrite HS.
      now apply (consistent_silent w _
                   [CallKeys (viewfile (Param_referer c)) false]).
    + destruct HS as (add & evs & w' & Hrep & ->). simpl.
      destruct (reports_world _ _ _ _ _ _ Hrep) as [Hf Ht].
      apply (consistent_silent
               (accessed (files w)
                  (CallKeys (viewfile (Param_referer c)) true) w) _ evs);
        [exact Hf | exact Ht | now apply (reports_quiet _ _ _ _ _ _ Hrep) |].
      now apply (consistent_silent w _
                   [CallKeys (viewfile (Param_referer c)) true]).
  - unfold Stat. now rewrite Hm.
Qed.

(** * The claims *)

(** C1. End to end: on a fresh store, two views of url1 and url2 and one
    click of url1 under the referer hotpop, then the report of hotpop: the
    reply is 200 with exactly two entries, url1 with 2 views, 1 click and
    CTR 2.0, then url2 with 2 views, no click and CTR 0, in the byte-wise
    order of the URLs. *)
Theorem scenario_report :
  (scenario fresh).1
  = JSON StatusOK
      (StatBody [ StatResp.Build "url1" 2 1 (float64 2);
                  StatResp.Build "url2" 2 0 (S754_zero false) ])
  ∧ SF2Q (float64 2) = Some (2 # 1)%Q
  ∧ String.le "url1" "url2" ∧ ¬ String.le "url2" "url1".
Proof.
  split; [vm_compute; reflexivity|].
  split; [vm_compute; reflexivity|].
  split; [exact I | intros []].
Qed.

(** C2. Every entry of a report has a CTR computed from its own two counts:
    the float64 quotient of views by clicks when clicks are positive, and 0
    when there is no click, which covers an absent click counter; clicks are
    never negative, so nothing is divided by zero. With 3 views and 2 clicks
    the CTR is 1.5. *)
Theorem Stat_ctr_policy (c : Context) (w : world) (resp : list StatResp.t)
    (s : StatResp.t) :
  (Stat c w).1 = JSON StatusOK (StatBody resp) ->
  s ∈ resp ->
  (0 < StatResp.Click s ->
   StatResp.CTR s
   = fdiv (float64 (StatResp.View s)) (float64 (StatResp.Click s)))
  ∧ (StatResp.Click s = 0 -> StatResp.CTR s = S754_zero false)
  ∧ 0 <= StatResp.Click s
  ∧ (counter (clickfile (Param_referer c)) (StatResp.Url s) w = None ->
     StatResp.Click s = 0 ∧ StatResp.CTR s = S754_zero false)
  ∧ (StatResp.View s = 3 -> StatResp.Click s = 2 ->
     SF2Q (StatResp.CTR s) = Some (3 # 2)%Q).
Proof.
  intros H Hs.
  destruct (Stat_OK_inv c w resp H) as (Hm & Hf & evs & Hrep).
  apply reports_fetched in Hrep. rewrite Forall_forall in Hrep.
  destruct (Hrep s Hs) as (Hentry & _ & _ & Hclick).
  apply (f_equal StatResp.CTR) in Hentry. simpl in Hentry.
  assert (Hpos : 0 <= StatResp.Click s).
  { destruct Hclick as [->|(c0 & _ & -> & _)]; [lia|].
    apply Z.mod_pos_bound. reflexivity. }
  assert (Hzero : StatResp.Click s = 0 -> StatResp.CTR s = S754_zero false).
  { intros Hz. now rewrite Hentry, Hz. }
  repeat split; auto.
  - intros Hlt. rewrite Hentry.
    destruct (Z.ltb_spec 0 (StatResp.Click s)); [reflexivity|lia].
  - destruct Hclick as [Hz|(c0 & Hc & _)]; [exact Hz|].
    unfold counter, table in *. simpl in *. congruence.
  - apply Hzero. destruct Hclick as [Hz|(c0 & Hc & _)]; [exact Hz|].
    unfold counter, table in *. simpl in *. congruence.
  - intros H3 H2. rewrite Hentry, H3, H2. vm_compute. reflexivity.
Qed.

Lemma Stat_ctr_policy_witness :
  let s := StatResp.Build "url1" 3 2 (fdiv (float64 3) (float64 2)) in
  (0 < StatResp.Click s ->
   StatResp.CTR s
   = fdiv (float64 (StatResp.View s)) (float64 (StatResp.Click s)))
  ∧ (StatResp.Click s = 0 -> StatResp.CTR s = S754_zero false)
  ∧ 0 <= StatResp.Click s
  ∧ (counter (clickfile "hotpop") (StatResp.Url s) three_views_two_clicks
     = None ->
     StatResp.Click s = 0 ∧ StatResp.CTR s = S754_zero false)
  ∧ (StatResp.View s = 3 -> StatResp.Click s = 2 ->
     SF2Q (StatResp.CTR s) = Some (3 # 2)%Q).
Proof.
  intros s.
  apply (Stat_ctr_policy (get "hotpop") three_views_two_clicks [s] s).
  - vm_compute. reflexivity.
  - apply elem_of_cons. left. reflexivity.
Defined.

Lemma stored_is_Some (n : nat) : is_Some (stored n) ↔ (0 < n)%nat.
Proof.
  destruct n; simpl; split; intros H; try lia.
  - destruct H as [x Hx]. discriminate.
  - eauto.
Qed.

Lemma listed_increments (file key : string) (w : world) :
  consistent w ->
  key ∈ listed file w ↔ (0 < increments file key (trace w))%nat.
Proof. intros H. now rewrite listed_elem, H, stored_is_Some. Qed.

Lemma consistent_clicked_not_viewed : consistent clicked_not_viewed.
Proof.
  unfold clicked_not_viewed. rewrite bind_run.
  apply consistent_Click, consistent_View, consistent_fresh.
Qed.

(** The order of [sp.Keys] compares strings byte by byte: the first bytes
    decide, and equal first bytes leave the decision to the rest. *)
Lemma le_bytewise (a b : Ascii.ascii) (s t : string) :
  String.le (String a s) (String b t)
  ↔ (Ascii.N_of_ascii a < Ascii.N_of_ascii b)%N ∨ (a = b ∧ String.le s t).
Proof.
  unfold String.le, String.leb. simpl. unfold Ascii.compare.
  destruct (N.compare_spec (Ascii.N_of_ascii a) (Ascii.N_of_ascii b))
    as [Heq|Hlt|Hgt].
  - assert (a = b) as ->.
    { rewrite <- (Ascii.ascii_N_embedding a), <- (Ascii.ascii_N_embedding b).
      now rewrite Heq. }
    split; [right; auto|]. intros [Hlt|[_ H]]; [lia|exact H].
  - split; [now left | intros _; exact I].
  - split; [intros []|]. intros [Hlt|[-> _]]; lia.
Qed.

Lemma Stat_order (c : Context) (w : world) (resp : list StatResp.t) :
  (Stat c w).1 = JSON StatusOK (StatBody resp) ->
  let file := viewfile (Param_referer c) in
  sublist (map StatResp.Url resp) (listed file w)
  ∧ (faults w = [] -> map StatResp.Url resp = listed file w).
Proof.
  intros H file.
  destruct (Stat_OK_inv c w resp H) as (Hm & Hf & evs & Hrep). fold file in Hrep.
  split; [eapply reports_sublist; eauto|].
  intros Hnf. destruct (reports_no_fault _ _ _ _ _ _ Hrep) as [Heq _].
  - simpl. now rewrite Hnf.
  - intros k Hk. now apply listed_elem in Hk.
  - exact Heq.
Qed.

(** C3. The report of a referer ranges over the keys listed from its view
    file and over nothing else: every reported URL has at least one recorded
    view increment, a URL with no recorded view is not reported whatever its
    clicks, and when no fetch fails the reported URLs are exactly the listed
    keys. *)
Theorem Stat_key_universe (c : Context) (w : world)
    (resp : list StatResp.t) :
  consistent w ->
  (Stat c w).1 = JSON StatusOK (StatBody resp) ->
  let file := viewfile (Param_referer c) in
  sublist (map StatResp.Url resp) (listed file w)
  ∧ (∀ url, url ∈ map StatResp.Url resp ->
            (0 < increments file url (trace w))%nat)
  ∧ (∀ url, increments file url (trace w) = O ->
            url ∉ map StatResp.Url resp)
  ∧ (faults w = [] ->
     map StatResp.Url resp = listed file w
     ∧ ∀ url, url ∈ map StatResp.Url resp
              ↔ (0 < increments file url (trace w))%nat).
Proof.
  intros Hcons H file.
  destruct (Stat_order c w resp H) as [Hsub Hall]. fold file in Hsub, Hall.
  assert (Hin : ∀ url, url ∈ map StatResp.Url resp ->
                       (0 < increments file url (trace w))%nat).
  { intros url Hurl. apply listed_increments; [exact Hcons|].
    eapply elem_of_sublist; eauto. }
  split; [exact Hsub|]. split; [exact Hin|]. split.
  - intros url Hz Hurl. apply Hin in Hurl. lia.
  - intros Hnf. split; [now apply Hall|].
    intros url. rewrite (Hall Hnf). now apply listed_increments.
Qed.

Lemma Stat_key_universe_witness :
  let resp := [ StatResp.Build "url1" 1 1 (float64 1);
                StatResp.Build "url2" 1 0 (S754_zero false) ] in
  let file := viewfile "hotpop" in
  sublist (map StatResp.Url resp) (listed file clicked_not_viewed)
  ∧ (∀ url, url ∈ map StatResp.Url resp ->
            (0 < increments file url (trace clicked_not_viewed))%nat)
  ∧ (∀ url, increments file url (trace clicked_not_viewed) = O ->
            url ∉ map StatResp.Url resp)
  ∧ (faults clicked_not_viewed = [] ->
     map StatResp.Url resp = listed file clicked_not_viewed
     ∧ ∀ url, url ∈ map StatResp.Url resp
              ↔ (0 < increments file url (trace clicked_not_viewed))%nat).
Proof.
  intros resp file.
  apply (Stat_key_universe (get "hotpop") clicked_not_viewed resp).
  - exact consistent_clicked_not_viewed.
  - vm_compute. reflexivity.
Defined.

(** C4. For a file whose listing meets no storage fault, [sp.Keys] returns
    the keys with at least one recorded increment in that file, each once,
    in ascending byte-wise order; a file never written gives the empty list
    and no error; and a GET report of the referer of that file is answered,
    with its URLs in the order of that enumeration, all of them when no
    fetch fails. *)
Theorem Keys_listing (file : string) (w : world) :
  consistent w ->
  faulty w = false ->
  ∃ ks,
    (Keys file w).1 = inr ks
    ∧ StronglySorted String.le ks
    ∧ NoDup ks
    ∧ (∀ k, k ∈ ks ↔ (0 < increments file k (trace w))%nat)
    ∧ ((∀ k, increments file k (trace w) = O) -> ks = [])
    ∧ (∀ c resp,
         viewfile (Param_referer c) = file ->
         (Stat c w).1 = JSON StatusOK (StatBody resp) ->
         sublist (map StatResp.Url resp) ks
         ∧ (faults w = [] -> map StatResp.Url resp = ks))
    ∧ (∀ c,
         Method c = "GET" -> viewfile (Param_referer c) = file ->
         ∃ resp,
           (Stat c w).1 = JSON StatusOK (StatBody resp)
           ∧ sublist (map StatResp.Url resp) ks
           ∧ (faults w = [] -> map StatResp.Url resp = ks)).
Proof.
  intros Hcons Hf. exists (listed file w).
  split; [now rewrite Keys_no_fault|].
  split; [apply listed_sorted|]. split; [apply listed_NoDup|].
  split; [intros k; now apply listed_increments|]. split; [|split].
  - intros Hnone. destruct (listed file w) as [|k ks] eqn:Hks; [reflexivity|].
    assert (Hk : k ∈ listed file w) by (rewrite Hks; apply elem_of_cons; now left).
    apply (listed_increments _ _ _ Hcons) in Hk. rewrite Hnone in Hk. lia.
  - intros c resp <- H.
    exact (Stat_order c w resp H).
  - intros c Hm <-. pose proof (Stat_GET c w Hm) as HS. simpl in HS.
    rewrite Hf in HS. destruct HS as (resp & evs & w' & _ & HS).
    assert (H : (Stat c w).1 = JSON StatusOK (StatBody resp))
      by now rewrite HS.
    exists resp. split; [exact H|]. exact (Stat_order c w resp H).
Qed.

Lemma Keys_listing_witness :
  ∃ ks resp,
    (Keys (viewfile "hotpop") clicked_not_viewed).1 = inr ks
    ∧ ks = ["url1"; "url2"]
    ∧ StronglySorted String.le ks
    ∧ NoDup ks
    ∧ (∀ k, k ∈ ks
            ↔ (0 < increments (viewfile "hotpop") k
                              (trace clicked_not_viewed))%nat)
    ∧ (Stat (get "hotpop") clicked_not_viewed).1
      = JSON StatusOK (StatBody resp)
    ∧ sublist (map StatResp.Url resp) ks
    ∧ map StatResp.Url resp = ks.
Proof.
  destruct (Keys_listing (viewfile "hotpop") clicked_not_viewed)
    as (ks & HK & Hsorted & Hnd & Hin & _ & _ & Hstat).
  - exact consistent_clicked_not_viewed.
  - reflexivity.
  - destruct (Hstat (get "hotpop") eq_refl eq_refl)
      as (resp & HS & Hsub & Hall).
    exists ks, resp. split; [exact HK|]. split.
    + assert (Hl : (Keys (viewfile "hotpop") clicked_not_viewed).1
                   = inr ["url1"; "url2"]) by (vm_compute; reflexivity).
      rewrite Hl in HK. now injection HK.
    + split; [exact Hsorted|]. split; [exact Hnd|]. split; [exact Hin|].
      split; [exact HS|]. split; [exact Hsub|]. now apply Hall.
Defined.

Lemma attempts_register_trace (file : string) (urls : list string)
    (fs : list bool) :
  attempts (register_trace file urls (schedule (length urls) fs))
  = map (pair file) urls.
Proof.
  revert fs. induction urls as [|u urls IH]; intros fs; simpl; [reflexivity|].
  now rewrite IH.
Qed.

Lemma register_events (file : string) (urls : list string) (w : world) :
  events (register file urls) w
  = register_trace file urls (schedule (length urls) (faults w)).
Proof. apply events_app. now destruct (register_spec file urls w). Qed.

Lemma register_counter (file : string) (urls : list string) (w : world)
    (u : string) :
  counter file u (register file urls w).2
  = bump (added u urls (schedule (length urls) (faults w))) (counter file u w).
Proof.
  destruct (register_spec file urls w) as (_ & _ & H).
  rewrite H. now rewrite decide_True.
Qed.

Lemma register_frame (file : string) (urls : list string) (w : world)
    (f k : string) :
  f ≠ file -> counter f k (register file urls w).2 = counter f k w.
Proof.
  intros Hne. destruct (register_spec file urls w) as (_ & _ & H).
  rewrite H. now rewrite decide_False.
Qed.

(** C5. A registration with referer [r] and URLs [us] makes one increment
    call on the file of its metric and [r] for each occurrence of each URL,
    in order, each followed by a close, whatever calls fail; the counter of
    a URL grows by one for each of its occurrences whose increment succeeds,
    so by its number of occurrences when none fails. *)
Theorem registration_increments (c : Context) (h : Hit.t)
    (urls : list string) (w : world) :
  Method c = "POST" -> ShouldBind c = inr h -> Hit.Urls h = Some urls ->
  let flags := schedule (length urls) (faults w) in
  let vf := viewfile (Hit.Referer h) in
  let cf := clickfile (Hit.Referer h) in
  (events (View c) w = register_trace vf urls flags
   ∧ attempts (events (View c) w) = map (pair vf) urls
   ∧ ∀ u, counter vf u (View c w).2 = bump (added u urls flags) (counter vf u w))
  ∧ (events (Click c) w = register_trace cf urls flags
     ∧ attempts (events (Click c) w) = map (pair cf) urls
     ∧ ∀ u, counter cf u (Click c w).2
            = bump (added u urls flags) (counter cf u w))
  ∧ (faults w = [] ->
     ∀ u, counter vf u (View c w).2
          = bump (count_occ String.eq_dec urls u) (counter vf u w)
          ∧ counter cf u (Click c w).2
            = bump (count_occ String.eq_dec urls u) (counter cf u w)).
Proof.
  intros Hm Hb Hu flags vf cf.
  assert (HV : ∀ w0, (View c w0).2 = (register vf urls w0).2)
    by (intros w0; now rewrite (POST_View c h urls w0 Hm Hb Hu)).
  assert (HC : ∀ w0, (Click c w0).2 = (register cf urls w0).2)
    by (intros w0; now rewrite (POST_Click c h urls w0 Hm Hb Hu)).
  assert (HVe : events (View c) w = register_trace vf urls flags)
    by (unfold events; rewrite HV; apply register_events).
  assert (HCe : events (Click c) w = register_trace cf urls flags)
    by (unfold events; rewrite HC; apply register_events).
  split; [|split].
  - split; [exact HVe|]. split.
    + rewrite HVe. apply attempts_register_trace.
    + intros u. rewrite HV. apply register_counter.
  - split; [exact HCe|]. split.
    + rewrite HCe. apply attempts_register_trace.
    + intros u. rewrite HC. apply register_counter.
  - intros Hnf u. rewrite HV, HC, !register_counter, Hnf, schedule_nil.
    now rewrite added_no_fault.
Qed.

Lemma registration_increments_witness :
  let c := post "hotpop" ["url1"; "url2"; "url1"] in
  let urls := ["url1"; "url2"; "url1"] in
  let w := second_write_fails in
  let flags := schedule (length urls) (faults w) in
  let vf := viewfile "hotpop" in
  let cf := clickfile "hotpop" in
  (events (View c) w = register_trace vf urls flags
   ∧ attempts (events (View c) w) = map (pair vf) urls
   ∧ ∀ u, counter vf u (View c w).2 = bump (added u urls flags) (counter vf u w))
  ∧ (events (Click c) w = register_trace cf urls flags
     ∧ attempts (events (Click c) w) = map (pair cf) urls
     ∧ ∀ u, counter cf u (Click c w).2
            = bump (added u urls flags) (counter cf u w))
  ∧ (faults w = [] ->
     ∀ u, counter vf u (View c w).2
          = bump (count_occ String.eq_dec urls u) (counter vf u w)
          ∧ counter cf u (Click c w).2
            = bump (count_occ String.eq_dec urls u) (counter cf u w)).
Proof.
  intros c urls w.
  apply (registration_increments c (Hit.Build "hotpop" (Some urls)) urls w);
    reflexivity.
Defined.

Lemma reply_of_View (c : Context) (w w' : world) :
  (View c w).1 = (View c w').1.
Proof.
  unfold View. destruct (String.eqb (Method c) "POST"); [|reflexivity].
  destruct (ShouldBind c) as [err|h]; [reflexivity|].
  destruct (Hit.Urls h) as [urls|]; [|reflexivity].
  now rewrite !bind_run.
Qed.

Lemma reply_of_Click (c : Context) (w w' : world) :
  (Click c w).1 = (Click c w').1.
Proof.
  unfold Click. destruct (String.eqb (Method c) "POST"); [|reflexivity].
  destruct (ShouldBind c) as [err|h]; [reflexivity|].
  destruct (Hit.Urls h) as [urls|]; [|reflexivity].
  now rewrite !bind_run.
Qed.

(** C6, as stated, fails: the only increment of this registration meets a
    storage fault, [sp.Counter] returns the write error and the counter stays
    absent, and the reply is the 200 acknowledgment of the run in which the
    increment succeeds. *)
Lemma failed_increment_acknowledged :
  let c := post "hotpop" ["url1"] in
  let w := first_write_fails in
  (Counter (viewfile "hotpop") "url1" w).1 = inl ErrIO
  ∧ events (View c) w
    = [CallCounter (viewfile "hotpop") "url1" false; CallCloseAll]
  ∧ counter (viewfile "hotpop") "url1" (View c w).2 = None
  ∧ (View c w).1 = JSON StatusOK (HitBody (Hit.Build "hotpop" (Some ["url1"])))
  ∧ (View c w).1 = (View c fresh).1
  ∧ counter (viewfile "hotpop") "url1" (View c fresh).2 = Some 1.
Proof. repeat split; vm_compute; reflexivity. Qed.

(** C6, amended. A storage fault makes [sp.Counter] return a write error to
    the handler and leaves every counter as it was, but the handlers drop
    that result: the reply of [View] and of [Click] is the same whatever the
    store does, and a bound request with a non-nil URL list is always
    acknowledged with 200 and the request echoed. *)
Theorem reply_ignores_outcomes (c : Context) (w w' : world) :
  (View c w).1 = (View c w').1
  ∧ (Click c w).1 = (Click c w').1
  ∧ (∀ h urls, Method c = "POST" -> ShouldBind c = inr h ->
               Hit.Urls h = Some urls ->
               (View c w).1 = JSON StatusOK (HitBody h)
               ∧ (Click c w).1 = JSON StatusOK (HitBody h))
  ∧ (∀ file key, faulty w = true ->
                 (Counter file key w).1 = inl ErrIO
                 ∧ ∀ f k, counter f k (Counter file key w).2 = counter f k w).
Proof.
  split; [apply reply_of_View|]. split; [apply reply_of_Click|]. split.
  - intros h urls Hm Hb Hu.
    now rewrite (POST_View c h urls w Hm Hb Hu),
                (POST_Click c h urls w Hm Hb Hu).
  - intros file key Hf. rewrite Counter_result, Hf. split; [reflexivity|].
    intros f k. now rewrite Counter_counter, Hf.
Qed.

Lemma reply_ignores_outcomes_witness :
  let c := post "hotpop" ["url1"] in
  let h := Hit.Build "hotpop" (Some ["url1"]) in
  ((View c first_write_fails).1 = JSON StatusOK (HitBody h)
   ∧ (Click c first_write_fails).1 = JSON StatusOK (HitBody h))
  ∧ (Counter (viewfile "hotpop") "url1" first_write_fails).1 = inl ErrIO
  ∧ (View c first_write_fails).1 = (View c fresh).1.
Proof.
  intros c h.
  destruct (reply_ignores_outcomes c first_write_fails fresh)
    as (HV & _ & Hack & Hstore).
  split; [apply (Hack h ["url1"]); reflexivity|].
  split; [apply (Hstore (viewfile "hotpop") "url1"); reflexivity|].
  exact HV.
Defined.

(** C8: a request whose URL list is the empty, non-nil slice passes the
    guard [h.Urls != nil]: it is acknowledged with 200, and no store call is
    made; only the nil slice is answered 422 with the error "empty urls". *)
Theorem empty_urls_acknowledged (referer : string) (w : world) :
  View (post_empty referer) w
  = (JSON StatusOK (HitBody (Hit.Build referer (Some []))), w)
  ∧ Click (post_empty referer) w
    = (JSON StatusOK (HitBody (Hit.Build referer (Some []))), w)
  ∧ View (post_nil referer) w
    = (JSON StatusUnprocessableEntity (ErrorBody "empty urls"), w)
  ∧ Click (post_nil referer) w
    = (JSON StatusUnprocessableEntity (ErrorBody "empty urls"), w).
Proof. repeat split. Qed.

Lemma reports_all_fetched (referer : string) keys w add evs w' :
  reports referer keys w add evs w' ->
  ∀ key, key ∈ keys -> ∃ ok, CallGet (viewfile referer) key ok ∈ evs.
Proof.
  induction 1 as [w|key0 keys w e add evs w' Hv Hrep IH
                 |key0 keys w v e add evs w' Hv Hc Hrep IH
                 |key0 keys w v c add evs w' Hv Hc Hrep IH]; intros key Hin.
  - inversion Hin.
  - apply elem_of_cons in Hin as [->|Hin].
    + exists false. apply elem_of_cons; now left.
    + destruct (IH key Hin) as [ok Hok]. exists ok.
      apply elem_of_cons; now right.
  - apply elem_of_cons in Hin as [->|Hin].
    + exists true. apply elem_of_cons; now left.
    + destruct (IH key Hin) as [ok Hok]. exists ok.
      do 2 (apply elem_of_cons; right). exact Hok.
  - apply elem_of_cons in Hin as [->|Hin].
    + exists true. apply elem_of_cons; now left.
    + destruct (IH key Hin) as [ok Hok]. exists ok.
      do 2 (apply elem_of_cons; right). exact Hok.
Qed.

(** C7. Once the keys are listed, [Stat] answers 200 with a report whatever
    fetch fails afterwards. Every listed key has its view count fetched; a
    key whose view fetch fails has no entry, every key whose view fetch
    succeeds has one; and an entry whose click fetch fails, or whose click
    counter is absent, reports 0 clicks. *)
Theorem Stat_partial_results (c : Context) (w : world) :
  Method c = "GET" -> faulty w = false ->
  let r := Param_referer c in
  let evs := events (Stat c) w in
  ∃ resp,
    (Stat c w).1 = JSON StatusOK (StatBody resp)
    ∧ (∀ key, key ∈ listed (viewfile r) w ->
              ∃ ok, CallGet (viewfile r) key ok ∈ evs)
    ∧ (∀ key, CallGet (viewfile r) key false ∈ evs ->
              key ∉ map StatResp.Url resp)
    ∧ (∀ key, CallGet (viewfile r) key true ∈ evs ->
              key ∈ map StatResp.Url resp)
    ∧ (∀ s, s ∈ resp ->
            CallGet (clickfile r) (StatResp.Url s) false ∈ evs ->
            StatResp.Click s = 0)
    ∧ (∀ s, s ∈ resp ->
            counter (clickfile r) (StatResp.Url s) w = None ->
            StatResp.Click s = 0).
Proof.
  intros Hm Hf r evs. pose proof (Stat_GET c w Hm) as HS. simpl in HS.
  rewrite Hf in HS. destruct HS as (resp & evs' & w' & Hrep & HS).
  fold r in Hrep. exists resp. split; [now rewrite HS|].
  destruct (reports_world _ _ _ _ _ _ Hrep) as [_ Ht].
  assert (Hevs : evs = CallKeys (viewfile r) true :: evs').
  { unfold evs. apply events_app. rewrite HS. simpl in *.
    now rewrite Ht, <- app_assoc. }
  assert (Hget : ∀ f k ok, CallGet f k ok ∈ evs ↔ CallGet f k ok ∈ evs').
  { intros f k ok. rewrite Hevs, elem_of_cons. split; [|auto].
    intros [Heq|Hin]; [discriminate|exact Hin]. }
  pose proof (reports_fetched _ _ _ _ _ _ Hrep) as Hfetched.
  rewrite Forall_forall in Hfetched.
  split; [|split; [|split; [|split]]].
  - intros key Hin.
    destruct (reports_all_fetched _ _ _ _ _ _ Hrep key Hin) as [ok Hok].
    exists ok. now apply Hget.
  - intros key Hin. apply Hget in Hin.
    eapply reports_omitted; eauto. apply listed_NoDup.
  - intros key Hin. apply Hget in Hin. eapply reports_produced; eauto.
  - intros s Hs Hin. apply Hget in Hin.
    destruct (Hfetched s Hs) as (_ & _ & _ & [Hz|(c0 & _ & _ & Hyes)]);
      [exact Hz|].
    exfalso. eapply reports_click_once; eauto. apply listed_NoDup.
  - intros s Hs Hnone.
    destruct (Hfetched s Hs) as (_ & _ & _ & [Hz|(c0 & Hc & _)]); [exact Hz|].
    unfold counter, table in *. simpl in *. congruence.
Qed.

Lemma Stat_partial_results_witness :
  ∃ resp,
    (Stat (get "hotpop") reads_fail).1 = JSON StatusOK (StatBody resp)
    ∧ (∀ key, key ∈ listed (viewfile "hotpop") reads_fail ->
              ∃ ok, CallGet (viewfile "hotpop") key ok
                    ∈ events (Stat (get "hotpop")) reads_fail)
    ∧ (∀ key, CallGet (viewfile "hotpop") key false
              ∈ events (Stat (get "hotpop")) reads_fail ->
              key ∉ map StatResp.Url resp)
    ∧ (∀ key, CallGet (viewfile "hotpop") key true
              ∈ events (Stat (get "hotpop")) reads_fail ->
              key ∈ map StatResp.Url resp)
    ∧ (∀ s, s ∈ resp ->
            CallGet (clickfile "hotpop") (StatResp.Url s) false
            ∈ events (Stat (get "hotpop")) reads_fail ->
            StatResp.Click s = 0)
    ∧ (∀ s, s ∈ resp ->
            counter (clickfile "hotpop") (StatResp.Url s) reads_fail = None ->
            StatResp.Click s = 0).
Proof.
  apply (Stat_partial_results (get "hotpop") reads_fail); reflexivity.
Defined.

(** The run behind the witness: url1 is reported with no click although its
    click counter is 1, and url2, whose view fetch fails, is left out. *)
Example Stat_reads_fail :
  (Stat (get "hotpop") reads_fail).1
  = JSON StatusOK (StatBody [StatResp.Build "url1" 1 0 (S754_zero false)])
  ∧ events (Stat (get "hotpop")) reads_fail
    = [ CallKeys (viewfile "hotpop") true;
        CallGet (viewfile "hotpop") "url1" true;
        CallGet (clickfile "hotpop") "url1" false;
        CallGet (viewfile "hotpop") "url2" false ]
  ∧ counter (clickfile "hotpop") "url1" reads_fail = Some 1.
Proof. repeat split; vm_compute; reflexivity. Qed.

Lemma View_frame (c : Context) (w : world) (f k : string) :
  (∀ h, ShouldBind c = inr h -> f ≠ viewfile (Hit.Referer h)) ->
  counter f k (View c w).2 = counter f k w.
Proof.
  intros Hne. unfold View.
  destruct (String.eqb (Method c) "POST"); [|reflexivity].
  destruct (ShouldBind c) as [err|h]; [reflexivity|].
  destruct (Hit.Urls h) as [urls|]; [|reflexivity].
  rewrite bind_run. simpl. apply register_frame. now apply Hne.
Qed.

Lemma Click_frame (c : Context) (w : world) (f k : string) :
  (∀ h, ShouldBind c = inr h -> f ≠ clickfile (Hit.Referer h)) ->
  counter f k (Click c w).2 = counter f k w.
Proof.
  intros Hne. unfold Click.
  destruct (String.eqb (Method c) "POST"); [|reflexivity].
  destruct (ShouldBind c) as [err|h]; [reflexivity|].
  destruct (Hit.Urls h) as [urls|]; [|reflexivity].
  rewrite bind_run. simpl. apply register_frame. now apply Hne.
Qed.

(** C9. An increment of [(file, key)] leaves the counter of every other pair
    as it was. So a registration under one referer leaves the view and click
    counters of every URL under any other referer untouched, a view
    registration leaves every click counter untouched, and a click
    registration every view counter. *)
Theorem increment_frame (c : Context) (w : world) (B url : string) :
  (∀ h, ShouldBind c = inr h -> Hit.Referer h ≠ B) ->
  (∀ file key f k, (f, k) ≠ (file, key) ->
                   counter f k (Counter file key w).2 = counter f k w)
  ∧ counter (viewfile B) url (View c w).2 = counter (viewfile B) url w
  ∧ counter (clickfile B) url (View c w).2 = counter (clickfile B) url w
  ∧ counter (viewfile B) url (Click c w).2 = counter (viewfile B) url w
  ∧ counter (clickfile B) url (Click c w).2 = counter (clickfile B) url w
  ∧ (∀ A, counter (clickfile A) url (View c w).2 = counter (clickfile A) url w
          ∧ counter (viewfile A) url (Click c w).2
            = counter (viewfile A) url w).
Proof.
  intros Hne.
  assert (Hvc : ∀ A A', clickfile A ≠ viewfile A')
    by (intros A A' Heq; now apply (viewfile_ne_clickfile A' A)).
  split; [|repeat split].
  - intros file key f k Hpair. rewrite Counter_counter.
    destruct (faulty w); [reflexivity|].
    rewrite decide_False; [reflexivity|]. intros [-> ->]. now apply Hpair.
  - apply View_frame. intros h Hb Heq. apply viewfile_inj in Heq.
    now apply (Hne h).
  - apply View_frame. intros h _. apply Hvc.
  - apply Click_frame. intros h _. apply viewfile_ne_clickfile.
  - apply Click_frame. intros h Hb Heq. apply clickfile_inj in Heq.
    now apply (Hne h).
  - apply View_frame. intros h _. apply Hvc.
  - apply Click_frame. intros h _. apply viewfile_ne_clickfile.
Qed.

Lemma increment_frame_witness :
  counter (viewfile "B") "url" (View (post "A" ["url"]) viewed_under_B).2
  = Some 1
  ∧ counter (viewfile "A") "url" (View (post "A" ["url"]) viewed_under_B).2
    = Some 1
  ∧ counter (clickfile "B") "url" (Click (post "A" ["url"]) viewed_under_B).2
    = None.
Proof.
  destruct (increment_frame (post "A" ["url"]) viewed_under_B "B" "url")
    as (_ & HvB & _ & _ & HcB & _).
  - intros h [= <-]. discriminate.
  - rewrite HvB, HcB. repeat split; vm_compute; reflexivity.
Defined.

(** * Further properties of the handlers *)

Lemma Stat_run (c : Context) (w : world) :
  let file := viewfile (Param_referer c) in
  (Method c ≠ "GET" ∧ Stat c w = (NoReply, w))
  ∨ (Method c = "GET" ∧ faulty w = true
     ∧ Stat c w = (JSON StatusUnprocessableEntity (StoreErrorBody ErrIO),
                   accessed (files w) (CallKeys file false) w))
  ∨ (Method c = "GET" ∧ faulty w = false
     ∧ ∃ resp evs,
         reports (Param_referer c) (listed file w)
                 (accessed (files w) (CallKeys file true) w)
                 resp evs (Stat c w).2
         ∧ (Stat c w).1 = JSON StatusOK (StatBody resp)).
Proof.
  intros file. destruct (String.eqb (Method c) "GET") eqn:Hm.
  - apply String.eqb_eq in Hm. right.
    pose proof (Stat_GET c w Hm) as HS. simpl in HS. fold file in HS.
    destruct (faulty w); [left; auto|right].
    destruct HS as (resp & evs & w' & Hrep & HS).
    split; [exact Hm|]. split; [reflexivity|].
    exists resp, evs. now rewrite HS.
  - left. split.
    + intros Heq. apply String.eqb_eq in Heq. congruence.
    + unfold Stat. now rewrite Hm.
Qed.

Lemma attempts_reads (referer : string) (keys : list string)
    (evs : list call) :
  Forall (λ ev, ∃ k ok, k ∈ keys ∧ (ev = CallGet (viewfile referer) k ok
                                    ∨ ev = CallGet (clickfile referer) k ok))
         evs ->
  attempts evs = [].
Proof.
  induction 1 as [|ev evs (k & ok & _ & [-> | ->]) _ IH]; simpl; auto.
Qed.

Lemma Stat_trace (c : Context) (w : world) :
  ∃ evs, trace (Stat c w).2 = trace w ++ evs
         ∧ files (Stat c w).2 = files w
         ∧ attempts evs = [].
Proof.
  destruct (Stat_run c w) as [[_ ->]|[(_ & _ & ->)|(_ & _ & resp & evs & Hrep & _)]].
  - exists []. simpl. now rewrite app_nil_r.
  - eexists [_]. simpl. auto.
  - destruct (reports_world _ _ _ _ _ _ Hrep) as [Hf Ht].
    exists (CallKeys (viewfile (Param_referer c)) true :: evs).
    split; [|split].
    + rewrite Ht. simpl. now rewrite <- app_assoc.
    + exact Hf.
    + simpl. eapply attempts_reads. eapply reports_events; eauto.
Qed.

(** [Stat] only reads: it leaves the counter files as they are, so every
    counter keeps its value, and it attempts no increment. *)
Theorem Stat_read_only (c : Context) (w : world) :
  files (Stat c w).2 = files w
  ∧ (∀ f k, counter f k (Stat c w).2 = counter f k w)
  ∧ attempts (events (Stat c) w) = [].
Proof.
  destruct (Stat_trace c w) as (evs & Ht & Hf & Ha).
  split; [exact Hf|]. split.
  - intros f k. now apply counter_files.
  - now rewrite (events_app _ _ _ Ht).
Qed.

(** What [Stat] answers: nothing, without touching the store, for a method
    other than GET; 422 with the store's error, after the one failed listing
    and no fetch, when the listing fails; and 200 with a report in every
    other case. It never panics on decoding a counter. *)
Theorem Stat_replies (c : Context) (w : world) :
  (Method c ≠ "GET" ∧ Stat c w = (NoReply, w))
  ∨ (Method c = "GET" ∧ faulty w = true
     ∧ (Stat c w).1 = JSON StatusUnprocessableEntity (StoreErrorBody ErrIO)
     ∧ events (Stat c) w = [CallKeys (viewfile (Param_referer c)) false])
  ∨ (Method c = "GET" ∧ faulty w = false
     ∧ ∃ resp, (Stat c w).1 = JSON StatusOK (StatBody resp)).
Proof.
  destruct (Stat_run c w) as [H|[(Hm & Hf & HS)|(Hm & Hf & resp & evs & _ & HS)]].
  - now left.
  - right; left. rewrite HS. repeat split; auto.
    apply events_app. now rewrite HS.
  - right; right. eauto.
Qed.

Lemma View_run (c : Context) (w : world) :
  (∃ h urls, Method c = "POST" ∧ ShouldBind c = inr h
             ∧ Hit.Urls h = Some urls
             ∧ View c w = (JSON StatusOK (HitBody h),
                           (register (viewfile (Hit.Referer h)) urls w).2))
  ∨ ((View c w).2 = w ∧ ∀ obj, (View c w).1 ≠ JSON StatusOK obj).
Proof.
  destruct (String.eqb (Method c) "POST") eqn:Hm.
  - apply String.eqb_eq in Hm.
    destruct (ShouldBind c) as [err|h] eqn:Hb.
    + right. unfold View. rewrite Hm, Hb. simpl. split; [reflexivity|].
      intros obj. discriminate.
    + destruct (Hit.Urls h) as [urls|] eqn:Hu.
      * left. exists h, urls. repeat split; auto. now apply POST_View.
      * right. unfold View. rewrite Hm, Hb, Hu. simpl.
        split; [reflexivity|]. intros obj. discriminate.
  - right. unfold View. rewrite Hm. simpl. split; [reflexivity|].
    intros obj. discriminate.
Qed.

Lemma Click_run (c : Context) (w : world) :
  (∃ h urls, Method c = "POST" ∧ ShouldBind c = inr h
             ∧ Hit.Urls h = Some urls
             ∧ Click c w = (JSON StatusOK (HitBody h),
                            (register (clickfile (Hit.Referer h)) urls w).2))
  ∨ ((Click c w).2 = w ∧ ∀ obj, (Click c w).1 ≠ JSON StatusOK obj).
Proof.
  destruct (String.eqb (Method c) "POST") eqn:Hm.
  - apply String.eqb_eq in Hm.
    destruct (ShouldBind c) as [err|h] eqn:Hb.
    + right. unfold Click. rewrite Hm, Hb. simpl. split; [reflexivity|].
      intros obj. discriminate.
    + destruct (Hit.Urls h) as [urls|] eqn:Hu.
      * left. exists h, urls. repeat split; auto. now apply POST_Click.
      * right. unfold Click. rewrite Hm, Hb, Hu. simpl.
        split; [reflexivity|]. intros obj. discriminate.
  - right. unfold Click. rewrite Hm. simpl. split; [reflexivity|].
    intros obj. discriminate.
Qed.

(** A registration that is not acknowledged with 200 has changed nothing:
    [View] and [Click] reach the store only for a POST whose body was bound
    and whose URL list is not nil, and that is the one case they answer
    200; no store call is made, and no counter moves, on any rejected or
    unanswered request. *)
Theorem rejected_registration_untouched (c : Context) (w : world) :
  ((∃ h urls, Method c = "POST" ∧ ShouldBind c = inr h
              ∧ Hit.Urls h = Some urls
              ∧ (View c w).1 = JSON StatusOK (HitBody h))
   ∨ ((View c w).2 = w ∧ ∀ obj, (View c w).1 ≠ JSON StatusOK obj))
  ∧ ((∃ h urls, Method c = "POST" ∧ ShouldBind c = inr h
                ∧ Hit.Urls h = Some urls
                ∧ (Click c w).1 = JSON StatusOK (HitBody h))
     ∨ ((Click c w).2 = w ∧ ∀ obj, (Click c w).1 ≠ JSON StatusOK obj)).
Proof.
  split.
  - destruct (View_run c w) as [(h & urls & Hm & Hb & Hu & HV)|H]; [left|now right].
    exists h, urls. now rewrite HV.
  - destruct (Click_run c w) as [(h & urls & Hm & Hb & Hu & HV)|H]; [left|now right].
    exists h, urls. now rewrite HV.
Qed.

Lemma View_post (referer : string) (urls : list string) (w : world) :
  View (post referer urls) w
  = (JSON StatusOK (HitBody (Hit.Build referer (Some urls))),
     (register (viewfile referer) urls w).2).
Proof. now apply POST_View. Qed.

Lemma Click_post (referer : string) (urls : list string) (w : world) :
  Click (post referer urls) w
  = (JSON StatusOK (HitBody (Hit.Build referer (Some urls))),
     (register (clickfile referer) urls w).2).
Proof. now apply POST_Click. Qed.

Lemma register_app (file : string) (a b : list string) (w : world) :
  register file (a ++ b) w = register file b (register file a w).2.
Proof.
  revert w. induction a as [|u a IH]; intros w; [reflexivity|].
  change ((u :: a) ++ b) with (u :: (a ++ b)).
  now rewrite !register_cons, IH.
Qed.

(** One registration of the list [a ++ b] leaves the world, trace
    included, that a registration of [a] followed by a registration of [b]
    leaves: the loop keeps nothing from one URL to the next, under every
    fault schedule. *)
Theorem registration_concat (referer : string) (a b : list string)
    (w : world) :
  (View (post referer (a ++ b)) w).2
  = (View (post referer b) (View (post referer a) w).2).2
  ∧ (Click (post referer (a ++ b)) w).2
    = (Click (post referer b) (Click (post referer a) w).2).2.
Proof.
  split.
  - rewrite !View_post. simpl. now rewrite register_app.
  - rewrite !Click_post. simpl. now rewrite register_app.
Qed.

Lemma bump_bump (a b : nat) (o : option Z) :
  bump a (bump b o) = bump (a + b) o.
Proof.
  destruct a as [|a]; [reflexivity|]. destruct b as [|b].
  - now rewrite Nat.add_0_r.
  - unfold bump, default, from_option, id. simpl Nat.add. f_equal.
    rewrite Z.add_mod_idemp_l by discriminate. f_equal. lia.
Qed.

Lemma register_no_fault (file : string) (urls : list string) (w : world) :
  faults w = [] ->
  faults (register file urls w).2 = []
  ∧ ∀ f k, counter f k (register file urls w).2
           = if decide (f = file)
             then bump (count_occ String.eq_dec urls k) (counter f k w)
             else counter f k w.
Proof.
  intros Hnf. destruct (register_spec file urls w) as (_ & Hf & Hc).
  split; [rewrite Hf, Hnf; apply drop_nil|].
  intros f k. rewrite Hc, Hnf, schedule_nil. now rewrite added_no_fault.
Qed.

Lemma register_commute (f1 f2 : string) (u1 u2 : list string) (w : world)
    (f k : string) :
  faults w = [] ->
  counter f k (register f2 u2 (register f1 u1 w).2).2
  = counter f k (register f1 u1 (register f2 u2 w).2).2.
Proof.
  intros Hnf.
  destruct (register_no_fault f1 u1 w Hnf) as [Hn1 Hc1].
  destruct (register_no_fault f2 u2 w Hnf) as [Hn2 Hc2].
  destruct (register_no_fault f2 u2 _ Hn1) as [_ Hc21].
  destruct (register_no_fault f1 u1 _ Hn2) as [_ Hc12].
  rewrite Hc21, Hc12, Hc1, Hc2.
  destruct (decide (f = f1)), (decide (f = f2)); try reflexivity.
  rewrite !bump_bump. f_equal. lia.
Qed.

(** With no storage fault scheduled, two registrations commute: whichever
    of the two requests is served first, view or click, same referer or
    not, every counter ends with the same value. *)
Theorem registrations_commute (r1 r2 : string) (u1 u2 : list string)
    (w : world) (f k : string) :
  faults w = [] ->
  counter f k (Click (post r2 u2) (View (post r1 u1) w).2).2
  = counter f k (View (post r1 u1) (Click (post r2 u2) w).2).2
  ∧ counter f k (View (post r2 u2) (View (post r1 u1) w).2).2
    = counter f k (View (post r1 u1) (View (post r2 u2) w).2).2
  ∧ counter f k (Click (post r2 u2) (Click (post r1 u1) w).2).2
    = counter f k (Click (post r1 u1) (Click (post r2 u2) w).2).2.
Proof.
  intros Hnf.
  rewrite !View_post, !Click_post. simpl.
  repeat split; now apply register_commute.
Qed.

Lemma registrations_commute_witness :
  counter (viewfile "B") "url"
          (Click (post "A" ["url"]) (View (post "B" ["url"]) viewed_under_B).2).2
  = Some 2
  ∧ counter (viewfile "B") "url"
            (View (post "B" ["url"]) (Click (post "A" ["url"]) viewed_under_B).2).2
    = Some 2.
Proof.
  destruct (registrations_commute "B" "A" ["url"] ["url"] viewed_under_B
              (viewfile "B") "url") as (H & _ & _); [reflexivity|].
  rewrite <- H. split; vm_compute; reflexivity.
Defined.

Lemma bump_is_Some (n : nat) (o : option Z) :
  is_Some o -> is_Some (bump n o).
Proof. destruct n; simpl; eauto. Qed.

Lemma register_persists (file : string) (urls : list string) (w : world)
    (f k : string) :
  is_Some (counter f k w) -> is_Some (counter f k (register file urls w).2).
Proof.
  intros H. destruct (register_spec file urls w) as (_ & _ & Hc). rewrite Hc.
  destruct (decide (f = file)); [now apply bump_is_Some|exact H].
Qed.

(** No handler ever removes a counter: a pair that has an entry still has
    one after any request to [View], [Click] or [Stat], whatever fails, so a
    key once listed stays listed. *)
Theorem counters_persist (c : Context) (w : world) (f k : string) :
  is_Some (counter f k w) ->
  is_Some (counter f k (View c w).2)
  ∧ is_Some (counter f k (Click c w).2)
  ∧ is_Some (counter f k (Stat c w).2)
  ∧ k ∈ listed f (View c w).2 ∧ k ∈ listed f (Click c w).2
  ∧ k ∈ listed f (Stat c w).2.
Proof.
  intros H.
  assert (HV : is_Some (counter f k (View c w).2)).
  { destruct (View_run c w) as [(h & urls & _ & _ & _ & ->)|[-> _]]; [|exact H].
    now apply register_persists. }
  assert (HC : is_Some (counter f k (Click c w).2)).
  { destruct (Click_run c w) as [(h & urls & _ & _ & _ & ->)|[-> _]]; [|exact H].
    now apply register_persists. }
  assert (HS : is_Some (counter f k (Stat c w).2)).
  { destruct (Stat_trace c w) as (evs & _ & Hf & _).
    now rewrite (counter_files _ _ _ _ Hf). }
  rewrite !listed_elem. auto 10.
Qed.

Lemma counters_persist_witness :
  is_Some (counter (viewfile "B") "url"
                   (View (post "B" ["url"]) viewed_under_B).2)
  ∧ is_Some (counter (viewfile "B") "url"
                     (Click (post "B" ["url"]) viewed_under_B).2)
  ∧ is_Some (counter (viewfile "B") "url"
                     (Stat (post "B" ["url"]) viewed_under_B).2)
  ∧ "url" ∈ listed (viewfile "B") (View (post "B" ["url"]) viewed_under_B).2
  ∧ "url" ∈ listed (viewfile "B") (Click (post "B" ["url"]) viewed_under_B).2
  ∧ "url" ∈ listed (viewfile "B") (Stat (post "B" ["url"]) viewed_under_B).2.
Proof.
  apply (counters_persist (post "B" ["url"]) viewed_under_B (viewfile "B") "url").
  exists 1. vm_compute. reflexivity.
Defined.

(** ** Fault-free reports *)

Lemma reports_faults_nil (referer : string) keys w add evs w' :
  reports referer keys w add evs w' -> faults w = [] -> faults w' = [].
Proof.
  induction 1 as [w|key0 keys w e add evs w' Hv Hrep IH
                 |key0 keys w v e add evs w' Hv Hc Hrep IH
                 |key0 keys w v c add evs w' Hv Hc Hrep IH]; intros Hnf.
  - exact Hnf.
  - apply IH. now rewrite Get_faults, Hnf.
  - apply IH. now rewrite !Get_faults, Hnf.
  - apply IH. now rewrite !Get_faults, Hnf.
Qed.

Lemma map_section {A B} (f : A -> B) (g : B -> A) (l : list A) :
  Forall (λ x, x = g (f x)) l -> l = map g (map f l).
Proof.
  induction 1 as [|x l Hx _ IH]; simpl; [reflexivity|].
  now rewrite <- Hx, <- IH.
Qed.

Lemma reports_closed (referer : string) keys w add evs w' :
  reports referer keys w add evs w' ->
  faults w = [] ->
  (∀ k, k ∈ keys -> is_Some (counter (viewfile referer) k w)) ->
  add = map (λ key,
               entry key
                 (default 0 (counter (viewfile referer) key w) mod two64)
                 (default 0 (counter (clickfile referer) key w) mod two64))
            keys.
Proof.
  intros Hrep Hnf Hall.
  destruct (reports_no_fault _ _ _ _ _ _ Hrep Hnf Hall) as [Hurl Hclick].
  pose proof (reports_fetched _ _ _ _ _ _ Hrep) as Hfetched.
  rewrite <- Hurl at 1. apply map_section.
  rewrite Forall_forall in *. intros s Hs.
  destruct (Hfetched s Hs) as (Hentry & (v & Hv & Hview) & _).
  rewrite Hv. simpl. rewrite <- Hview, <- (Hclick s Hs). exact Hentry.
Qed.

Lemma Stat_no_fault (c : Context) (w : world) :
  Method c = "GET" -> faults w = [] ->
  (Stat c w).1 = JSON StatusOK (StatBody (report_of (Param_referer c) w))
  ∧ faults (Stat c w).2 = [].
Proof.
  intros Hm Hnf. pose proof (Stat_GET c w Hm) as HS. simpl in HS.
  rewrite (faulty_nil w Hnf) in HS.
  destruct HS as (add & evs & w' & Hrep & HS). rewrite HS. simpl.
  split.
  - do 2 f_equal. unfold report_of.
    apply (reports_closed _ _ _ _ _ _ Hrep).
    + simpl. now rewrite Hnf.
    + intros k Hk. now apply listed_elem in Hk.
  - apply (reports_faults_nil _ _ _ _ _ _ Hrep). simpl. now rewrite Hnf.
Qed.

Lemma report_of_files (referer : string) (w w' : world) :
  files w' = files w -> report_of referer w' = report_of referer w.
Proof.
  intros Hf. unfold report_of, listed, counter, table. now rewrite Hf.
Qed.

(** With no storage fault scheduled, the report is the store read out: one
    entry for each key of the referer's view file, in the order of the
    listing, with the stored view count and the stored click count (0 when
    there is none). In a world that satisfies the invariant these are the
    numbers of successful view and click registrations of the URL. *)
Theorem report_reflects_store (c : Context) (w : world) :
  Method c = "GET" -> faults w = [] ->
  let r := Param_referer c in
  (Stat c w).1 = JSON StatusOK (StatBody (report_of r w))
  ∧ map StatResp.Url (report_of r w) = listed (viewfile r) w
  ∧ (consistent w ->
     ∀ s, s ∈ report_of r w ->
          StatResp.View s
          = Z.of_nat (increments (viewfile r) (StatResp.Url s) (trace w))
            mod two64
          ∧ StatResp.Click s
            = Z.of_nat (increments (clickfile r) (StatResp.Url s) (trace w))
              mod two64).
Proof.
  intros Hm Hnf r.
  split; [now apply Stat_no_fault|]. split.
  - unfold report_of. rewrite map_map. simpl. apply map_id.
  - intros Hcons s Hs. unfold report_of in Hs.
    apply list_elem_of_fmap in Hs as (key & -> & Hkey). simpl.
    rewrite !Hcons.
    split; (destruct (increments _ key (trace w)); [reflexivity|];
            unfold stored, default, from_option, id;
            apply Z.mod_mod; discriminate).
Qed.

Lemma report_reflects_store_witness :
  (Stat (get "hotpop") clicked_not_viewed).1
  = JSON StatusOK (StatBody (report_of "hotpop" clicked_not_viewed))
  ∧ map StatResp.Url (report_of "hotpop" clicked_not_viewed)
    = listed (viewfile "hotpop") clicked_not_viewed
  ∧ (consistent clicked_not_viewed ->
     ∀ s, s ∈ report_of "hotpop" clicked_not_viewed ->
          StatResp.View s
          = Z.of_nat (increments (viewfile "hotpop") (StatResp.Url s)
                                 (trace clicked_not_viewed)) mod two64
          ∧ StatResp.Click s
            = Z.of_nat (increments (clickfile "hotpop") (StatResp.Url s)
                                   (trace clicked_not_viewed)) mod two64).
Proof.
  apply (report_reflects_store (get "hotpop") clicked_not_viewed); reflexivity.
Defined.

(** With no storage fault scheduled, asking for the same report again gives
    the same reply: [Stat] keeps nothing between calls and changes nothing
    it reads. *)
Theorem Stat_repeatable (c : Context) (w : world) :
  faults w = [] ->
  (Stat c (Stat c w).2).1 = (Stat c w).1.
Proof.
  intros Hnf. destruct (String.eqb (Method c) "GET") eqn:Hm.
  - apply String.eqb_eq in Hm.
    destruct (Stat_no_fault c w Hm Hnf) as [H1 Hnf'].
    destruct (Stat_no_fault c _ Hm Hnf') as [H2 _].
    rewrite H2, H1. do 2 f_equal. apply report_of_files.
    destruct (Stat_trace c w) as (evs & _ & Hf & _). exact Hf.
  - unfold Stat. now rewrite Hm.
Qed.

Lemma Stat_repeatable_witness :
  (Stat (get "hotpop") (Stat (get "hotpop") clicked_not_viewed).2).1
  = (Stat (get "hotpop") clicked_not_viewed).1.
Proof. apply Stat_repeatable. reflexivity. Defined.

(** With no storage fault scheduled, a URL of an acknowledged view
    registration is in the next report of its referer, with as many views
    more than before as the registration listed it. *)
Theorem viewed_url_reported (referer u : string) (urls : list string)
    (w : world) :
  faults w = [] -> u ∈ urls ->
  let w1 := (View (post referer urls) w).2 in
  ∃ resp s,
    (Stat (get referer) w1).1 = JSON StatusOK (StatBody resp)
    ∧ s ∈ resp ∧ StatResp.Url s = u
    ∧ StatResp.View s
      = (default 0 (counter (viewfile referer) u w)
         + Z.of_nat (count_occ String.eq_dec urls u)) mod two64.
Proof.
  intros Hnf Hu w1.
  assert (Hw1 : w1 = (register (viewfile referer) urls w).2)
    by (unfold w1; now rewrite View_post).
  destruct (register_no_fault (viewfile referer) urls w Hnf) as [Hnf1 Hc].
  rewrite <- Hw1 in Hnf1, Hc.
  destruct (Stat_no_fault (get referer) w1 eq_refl Hnf1) as [HS _].
  simpl in HS.
  assert (Hcount : (0 < count_occ String.eq_dec urls u)%nat)
    by (apply count_occ_In; now apply list_elem_of_In).
  assert (Hcu : counter (viewfile referer) u w1
                = Some ((default 0 (counter (viewfile referer) u w)
                         + Z.of_nat (count_occ String.eq_dec urls u))
                        mod two64)).
  { rewrite Hc, decide_True by reflexivity.
    destruct (count_occ String.eq_dec urls u); [lia|reflexivity]. }
  eexists _, _. split; [exact HS|]. split; [|split].
  - unfold report_of. apply list_elem_of_fmap. exists u.
    split; [reflexivity|]. apply listed_elem. rewrite Hcu. eauto.
  - reflexivity.
  - simpl. rewrite Hcu. simpl. apply Z.mod_mod. discriminate.
Qed.

Lemma viewed_url_reported_witness :
  ∃ resp s,
    (Stat (get "B") (View (post "B" ["url"; "url"]) viewed_under_B).2).1
    = JSON StatusOK (StatBody resp)
    ∧ s ∈ resp ∧ StatResp.Url s = "url"
    ∧ StatResp.View s
      = (default 0 (counter (viewfile "B") "url" viewed_under_B)
         + Z.of_nat (count_occ String.eq_dec ["url"; "url"] "url")) mod two64.
Proof.
  apply (viewed_url_reported "B" "url" ["url"; "url"] viewed_under_B).
  - reflexivity.
  - apply elem_of_cons. left. reflexivity.
Defined.

(** ** The fetches of a report *)

Lemma reports_gets (referer : string) keys w add evs w' :
  reports referer keys w add evs w' ->
  gets (viewfile referer) evs = keys
  ∧ gets (clickfile referer) evs = map StatResp.Url add.
Proof.
  pose proof (viewfile_ne_clickfile referer referer) as Hne.
  assert (Hne' : clickfile referer ≠ viewfile referer) by congruence.
  induction 1 as [w|key0 keys w e add evs w' Hv Hrep [IHv IHc]
                 |key0 keys w v e add evs w' Hv Hc Hrep [IHv IHc]
                 |key0 keys w v c add evs w' Hv Hc Hrep [IHv IHc]];
    cbn [gets map StatResp.Url entry].
  - auto.
  - repeat case_decide; try congruence. now rewrite IHv, IHc.
  - repeat case_decide; try congruence. now rewrite IHv, IHc.
  - repeat case_decide; try congruence. now rewrite IHv, IHc.
Qed.

(** A report that is answered fetched the view count of every listed key
    once, in the order of the listing, and the click count of exactly the
    keys it reports, in the order of the report: the click of a key is not
    fetched when its view fetch failed. *)
Theorem Stat_fetches (c : Context) (w : world) (resp : list StatResp.t) :
  (Stat c w).1 = JSON StatusOK (StatBody resp) ->
  let r := Param_referer c in
  gets (viewfile r) (events (Stat c) w) = listed (viewfile r) w
  ∧ gets (clickfile r) (events (Stat c) w) = map StatResp.Url resp.
Proof.
  intros H r.
  destruct (Stat_OK_inv c w resp H) as (_ & _ & evs & Hrep). fold r in Hrep.
  destruct (reports_world _ _ _ _ _ _ Hrep) as [_ Ht].
  assert (Hev : events (Stat c) w = CallKeys (viewfile r) true :: evs).
  { apply events_app. rewrite Ht. simpl. now rewrite <- app_assoc. }
  rewrite Hev. cbn [gets]. now apply reports_gets in Hrep.
Qed.

Lemma Stat_fetches_witness :
  gets (viewfile "hotpop") (events (Stat (get "hotpop")) reads_fail)
  = listed (viewfile "hotpop") reads_fail
  ∧ gets (clickfile "hotpop") (events (Stat (get "hotpop")) reads_fail)
    = map StatResp.Url [StatResp.Build "url1" 1 0 (S754_zero false)].
Proof.
  apply (Stat_fetches (get "hotpop") reads_fail).
  vm_compute. reflexivity.
Defined.

(** ** The CORS middleware *)

Lemma CORS_headers (next : Context -> M reply) (c : Context)
    (hs : gmap string (list string)) (w : world) :
  (CORSMiddleware next c hs w).1.1
  = Set_header "Access-Control-Allow-Credentials" "true"
      (Set_header "Access-Control-Expose-Headers" "Content-Length"
         (Set_header "Access-Control-Allow-Headers"
            "Origin, Content-Type, Content-Length, Accept-Encoding, X-CSRF-Token, Authorization"
            (Set_header "Access-Control-Allow-Methods"
               "POST, GET, OPTIONS, PUT, DELETE, UPDATE"
               (Set_header "Access-Control-Max-Age" "86400"
                  (Set_header "Access-Control-Allow-Origin" "*" hs))))).
Proof.
  unfold CORSMiddleware.
  destruct (String.eqb (Method c) "OPTIONS"); [reflexivity|].
  now rewrite bind_run.
Qed.

(** Every response that passes the middleware carries the six CORS headers
    with their fixed values, whatever the headers held before and whatever
    the method and the handler's outcome, and no other header is changed. A
    request with method OPTIONS is answered 200 there and never reaches the
    handler behind, so it cannot change the store; any other request gets
    the reply and the effect of the handler behind. *)
Theorem CORS_contract (next : Context -> M reply) (c : Context)
    (hs : gmap string (list string)) (w : world) :
  let out := CORSMiddleware next c hs w in
  (∀ k v, (k, v) ∈ cors_headers -> out.1.1 !! k = Some [v])
  ∧ (∀ k, k ∉ cors_headers.*1 -> out.1.1 !! k = hs !! k)
  ∧ (Method c = "OPTIONS" -> out.1.2 = Aborted 200 ∧ out.2 = w)
  ∧ (Method c ≠ "OPTIONS" ->
     out.1.2 = Passed (next c w).1 ∧ out.2 = (next c w).2).
Proof.
  intros out. unfold out. split; [|split; [|split]].
  - intros k v Hin. rewrite CORS_headers. unfold Set_header, cors_headers in *.
    repeat (apply elem_of_cons in Hin as [[= -> ->]|Hin];
            [repeat (rewrite lookup_insert_ne by discriminate);
             now rewrite lookup_insert_eq|]).
    inversion Hin.
  - intros k Hk. rewrite CORS_headers. unfold Set_header, cors_headers in *.
    simpl in Hk. repeat (apply not_elem_of_cons in Hk as [? Hk]).
    now repeat (rewrite lookup_insert_ne by congruence).
  - intros Hm. unfold CORSMiddleware. now rewrite Hm.
  - intros Hm. unfold CORSMiddleware.
    destruct (String.eqb (Method c) "OPTIONS") eqn:Heq.
    + apply String.eqb_eq in Heq. contradiction.
    + now rewrite bind_run.
Qed.

Lemma CORS_contract_witness :
  (CORSMiddleware View (preflight "hotpop") ∅ viewed_under_B).1.2
  = Aborted 200
  ∧ (CORSMiddleware View (preflight "hotpop") ∅ viewed_under_B).2
    = viewed_under_B
  ∧ (CORSMiddleware View (post "B" ["url"]) ∅ viewed_under_B).1.2
    = Passed (View (post "B" ["url"]) viewed_under_B).1
  ∧ (CORSMiddleware View (post "B" ["url"]) ∅ viewed_under_B).1.1
    !! "Access-Control-Allow-Origin" = Some ["*"].
Proof.
  destruct (CORS_contract View (preflight "hotpop") ∅ viewed_under_B)
    as (_ & _ & Hopt & _).
  destruct (CORS_contract View (post "B" ["url"]) ∅ viewed_under_B)
    as (Hset & _ & _ & Hpass).
  destruct (Hopt eq_refl) as [Ha Hw].
  destruct Hpass as [Hp _]; [discriminate|].
  split; [exact Ha|]. split; [exact Hw|]. split; [exact Hp|].
  apply Hset. apply elem_of_cons. left. reflexivity.
Defined.

(** ** The invariant along every run *)

(** The invariant of the data model holds of the fresh store and is kept by
    every request to [View], [Click] and [Stat], under every fault schedule:
    at any time each counter is the number of increments of its pair that
    succeeded, modulo 2^64, and a pair never incremented with success has no
    entry. *)
Theorem handlers_keep_invariant (c : Context) (fs : list bool) (w : world) :
  consistent w ->
  consistent (View c (with_faults fs w)).2
  ∧ consistent (Click c (with_faults fs w)).2
  ∧ consistent (Stat c (with_faults fs w)).2.
Proof.
  intros H. apply (consistent_with_faults fs) in H.
  split; [now apply consistent_View|].
  split; [now apply consistent_Click | now apply consistent_Stat].
Qed.

Lemma handlers_keep_invariant_witness :
  consistent (View (post "hotpop" ["url1"; "url2"])
                   (with_faults [false; true] fresh)).2
  ∧ consistent (Click (post "hotpop" ["url1"; "url2"])
                      (with_faults [false; true] fresh)).2
  ∧ consistent (Stat (post "hotpop" ["url1"; "url2"])
                     (with_faults [false; true] fresh)).2.
Proof.
  apply (handlers_keep_invariant (post "hotpop" ["url1"; "url2"])
           [false; true] fresh).
  intros file key. reflexivity.
Defined.
